(** * A lazy-propagation segment tree (segment_tree.cpp)

    Shallow embedding of the class [SegmentTree] and proofs about range
    update ([add]) and range query ([get_sum]).

    - A C++ [int] is a [Z] in [[int_min, int_max]]; every arithmetic
      operation of the source is followed by [wrap], the two's-complement
      reduction to 32 bits.
    - A [vector<int>] is a [list Z]; an access outside [[0, size)] has no
      defined result in C++ and ends the call with [OutOfBounds].
    - Member functions run in a state-and-failure monad over the record of
      the four data members.
    - The recursive members take a [fuel] argument bounding the depth of
      the call stack; a call that needs more ends with [StackExhausted]. *)

From Stdlib Require Import ZArith Lia Bool List.
From stdpp Require Import base option list.

Local Open Scope Z_scope.

(** ** 32-bit [int] arithmetic *)

Module Int32.

Definition modulus : Z := 2 ^ 32.
Definition int_min : Z := - 2 ^ 31.
Definition int_max : Z := 2 ^ 31 - 1.

Definition is_int (z : Z) : Prop := int_min <= z <= int_max.

(** Reduction of a mathematical integer to the [int] it is stored as. *)
Definition wrap (z : Z) : Z := (z + 2 ^ 31) mod modulus - 2 ^ 31.

Definition add32 (a b : Z) : Z := wrap (a + b).
Definition sub32 (a b : Z) : Z := wrap (a - b).
Definition mul32 (a b : Z) : Z := wrap (a * b).
Definition neg32 (a : Z) : Z := wrap (- a).
(** Integer division of C++ truncates towards zero. *)
Definition div32 (a b : Z) : Z := wrap (Z.quot a b).

End Int32.
Import Int32.

(** ** Vectors indexed by [int] *)

(** [v[i]] as an rvalue. *)
Definition vget (v : list Z) (i : Z) : option Z :=
  if decide (0 <= i) then v !! Z.to_nat i else None.

(** [v[i] = x]. *)
Definition vset (v : list Z) (i : Z) (x : Z) : option (list Z) :=
  if decide (0 <= i < Z.of_nat (length v)) then Some (<[Z.to_nat i := x]> v)
  else None.

(** [vector<int>(count, 0)]: the count is converted to [size_t], so a
    negative one asks for more than [max_size()] elements and throws. *)
Definition new_vector (count : Z) : option (list Z) :=
  if decide (0 <= count) then Some (replicate (Z.to_nat count) 0) else None.

(** ** The object and its monad *)

Record SegmentTree : Type := MkSegmentTree {
  _left_bound : Z;
  _right_bound : Z;
  _tree : list Z;
  _tags : list Z
}.

(** How a call on an object ends: it returns [a] and leaves the object
    as [s], or it reads or writes an array outside its bounds, or it
    recurses deeper than the stack allows. *)
Inductive outcome (A : Type) : Type :=
| Done (a : A) (s : SegmentTree)
| OutOfBounds
| StackExhausted.

Arguments Done {A} a s.
Arguments OutOfBounds {A}.
Arguments StackExhausted {A}.

Definition M (A : Type) : Type := SegmentTree -> outcome A.

Definition ret {A} (a : A) : M A := fun s => Done a s.

Definition bind {A B} (m : M A) (k : A -> M B) : M B :=
  fun s => match m s with
           | Done a s' => k a s'
           | OutOfBounds => OutOfBounds
           | StackExhausted => StackExhausted
           end.

Definition out_of_bounds {A} : M A := fun _ => OutOfBounds.
Definition stack_exhausted {A} : M A := fun _ => StackExhausted.

Declare Scope seg_scope.
Delimit Scope seg_scope with seg.
Notation "x <-- m ;; k" := (bind m (fun x => k))
  (at level 100, m at next level, right associativity) : seg_scope.
Notation "m ;;; k" := (bind m (fun _ => k))
  (at level 100, right associativity) : seg_scope.
Local Open Scope seg_scope.

(** Reads and writes of the two arrays. *)
Definition tree_at (idx : Z) : M Z :=
  fun s => match vget (_tree s) idx with
           | Some x => Done x s
           | None => OutOfBounds
           end.

Definition tags_at (idx : Z) : M Z :=
  fun s => match vget (_tags s) idx with
           | Some x => Done x s
           | None => OutOfBounds
           end.

Definition set_tree (idx x : Z) : M unit :=
  fun s => match vset (_tree s) idx x with
           | Some t => Done tt (MkSegmentTree (_left_bound s) (_right_bound s) t (_tags s))
           | None => OutOfBounds
           end.

Definition set_tags (idx x : Z) : M unit :=
  fun s => match vset (_tags s) idx x with
           | Some t => Done tt (MkSegmentTree (_left_bound s) (_right_bound s) (_tree s) t)
           | None => OutOfBounds
           end.

(** ** Member functions *)

(** [_space_needed()]. *)
Definition _space_needed (s : SegmentTree) : Z :=
  mul32 4 (add32 (sub32 (_right_bound s) (_left_bound s)) 1).

(** [_build(idx, left, right, vec)]. *)
Fixpoint _build (fuel : nat) (idx left right : Z) (vec : list Z) : M unit :=
  match fuel with
  | O => stack_exhausted
  | S fuel =>
    if left =? right then
      match vget vec left with
      | Some x => set_tree idx x
      | None => out_of_bounds
      end
    else
      let mid := add32 left (div32 (sub32 right left) 2) in
      _build fuel (mul32 idx 2) left mid vec ;;;
      _build fuel (add32 (mul32 idx 2) 1) (add32 mid 1) right vec ;;;
      a <-- tree_at (mul32 idx 2) ;;
      b <-- tree_at (add32 (mul32 idx 2) 1) ;;
      set_tree idx (add32 a b)
  end.

(** The block headed "Push stacked updates (lazy tag) down", which
    [_add] (lines 64-72) and [_get_sum] (lines 103-111) both contain,
    statement by statement. *)
Definition push_down (idx left_bound right_bound mid : Z) : M unit :=
  t <-- tags_at idx ;;
  if negb (t =? 0) && negb (left_bound =? right_bound) then
    (c <-- tags_at (mul32 idx 2) ;; t <-- tags_at idx ;;
     set_tags (mul32 idx 2) (add32 c t)) ;;;
    (c <-- tags_at (add32 (mul32 idx 2) 1) ;; t <-- tags_at idx ;;
     set_tags (add32 (mul32 idx 2) 1) (add32 c t)) ;;;
    (a <-- tree_at (mul32 idx 2) ;; t <-- tags_at idx ;;
     set_tree (mul32 idx 2)
       (add32 a (mul32 t (add32 (sub32 mid left_bound) 1)))) ;;;
    (a <-- tree_at (add32 (mul32 idx 2) 1) ;; t <-- tags_at idx ;;
     set_tree (add32 (mul32 idx 2) 1)
       (add32 a (mul32 t (sub32 right_bound mid)))) ;;;
    set_tags idx 0
  else ret tt.

(** [_add(value, idx, left, right, left_bound, right_bound)]. *)
Fixpoint _add (fuel : nat) (value idx left right left_bound right_bound : Z)
  : M unit :=
  match fuel with
  | O => stack_exhausted
  | S fuel =>
    if (left <=? left_bound) && (right_bound <=? right) then
      (a <-- tree_at idx ;;
       set_tree idx
         (add32 a (mul32 value (add32 (sub32 right_bound left_bound) 1)))) ;;;
      (t <-- tags_at idx ;; set_tags idx (add32 t value))
    else
      let mid := add32 left_bound (div32 (sub32 right_bound left_bound) 2) in
      push_down idx left_bound right_bound mid ;;;
      (if left <=? mid
       then _add fuel value (mul32 idx 2) left right left_bound mid
       else ret tt) ;;;
      (if add32 mid 1 <=? right
       then _add fuel value (add32 (mul32 idx 2) 1) left right
                 (add32 mid 1) right_bound
       else ret tt) ;;;
      a <-- tree_at (mul32 idx 2) ;;
      b <-- tree_at (add32 (mul32 idx 2) 1) ;;
      set_tree idx (add32 a b)
  end.

(** [_get_sum(idx, left, right, left_bound, right_bound)]. *)
Fixpoint _get_sum (fuel : nat) (idx left right left_bound right_bound : Z)
  : M Z :=
  match fuel with
  | O => stack_exhausted
  | S fuel =>
    if (left <=? left_bound) && (right_bound <=? right) then tree_at idx
    else
      let mid := add32 left_bound (div32 (sub32 right_bound left_bound) 2) in
      let sum := 0 in
      push_down idx left_bound right_bound mid ;;;
      sum <-- (if left <=? mid
               then s <-- _get_sum fuel (mul32 idx 2) left right left_bound mid ;;
                    ret (add32 sum s)
               else ret sum) ;;
      sum <-- (if add32 mid 1 <=? right
               then s <-- _get_sum fuel (add32 (mul32 idx 2) 1) left right
                                   (add32 mid 1) right_bound ;;
                    ret (add32 sum s)
               else ret sum) ;;
      ret sum
  end.

(** Depth of call stack granted to the recursive members.  A range of
    [int]s has fewer than [2^32] points and each level halves it, so no
    well-formed call comes near this depth. *)
Definition stack_depth : nat := 64.

(** [SegmentTree(int left_bound, int right_bound)]; there is no object
    when an allocation throws. *)
Definition SegmentTree_range (left_bound right_bound : Z) : option SegmentTree :=
  let s0 := MkSegmentTree left_bound right_bound [] [] in
  match new_vector (_space_needed s0) with
  | Some tree =>
    let s1 := MkSegmentTree left_bound right_bound tree [] in
    match new_vector (_space_needed s1) with
    | Some tags => Some (MkSegmentTree left_bound right_bound tree tags)
    | None => None
    end
  | None => None
  end.

(** [SegmentTree(const vector<int>& vec)]; [vec.size()-1] is computed in
    [size_t] and converted to [int].  No object is constructed when an
    allocation throws or [_build] does not return. *)
Definition SegmentTree_vec (vec : list Z) : option SegmentTree :=
  let lb := 0 in
  let rb := wrap (Z.of_nat (length vec) - 1) in
  match SegmentTree_range lb rb with
  | Some s =>
    match _build stack_depth 1 (_left_bound s) (_right_bound s) vec s with
    | Done _ s' => Some s'
    | _ => None
    end
  | None => None
  end.

(** [get_sum(left, right)]. *)
Definition get_sum (left right : Z) : M Z :=
  fun s => _get_sum stack_depth 1 left right (_left_bound s) (_right_bound s) s.

(** [add(value, left, right)]. *)
Definition add (value left right : Z) : M unit :=
  fun s => _add stack_depth value 1 left right (_left_bound s) (_right_bound s) s.

(** *** The driver ([main]) *)

(** The object a call leaves, if it returns. *)
Definition state_after {A} (m : M A) (s : option SegmentTree) : option SegmentTree :=
  match s with
  | Some s => match m s with Done _ s' => Some s' | _ => None end
  | None => None
  end.

(** The loop [for (int i = first; ...; i++) segtree.add(sign * i, i, i)]
    of [n] rounds, from an object that may not exist. *)
Fixpoint add_each (sign : Z) (i : Z) (n : nat) (s : option SegmentTree)
  : option SegmentTree :=
  match n with
  | O => s
  | S n => add_each sign (i + 1) n (state_after (add (sign * i) i i) s)
  end.

(** The loop [for (int i = first; ...; i++) segtree.add(sign * i, i, i)]
    of [n] rounds, as a call sequence on the one object. *)
Fixpoint add_loop (sign : Z) (i : Z) (n : nat) : M unit :=
  match n with
  | O => ret tt
  | S n => add (sign * i) i i ;;; add_loop sign (i + 1) n
  end.

(** The calls [main] makes on [segtree], in order, each on the object
    the one before left; the result lists what is printed. *)
Definition main_calls : M (list Z) :=
  o1 <-- get_sum 2 5 ;;
  add 1 1 1 ;;;
  o2 <-- get_sum 2 5 ;;
  o3 <-- get_sum 1 2 ;;
  add (-1) 1 1 ;;;
  o4 <-- get_sum 2 5 ;;
  o5 <-- get_sum 1 2 ;;
  add_loop 1 1 50 ;;;
  o6 <-- get_sum 2 5 ;;
  o7 <-- get_sum 1 10 ;;
  add_loop (-1) 1 50 ;;;
  o8 <-- get_sum 2 5 ;;
  o9 <-- get_sum 1 10 ;;
  add 5 10 23 ;;;
  o10 <-- get_sum 2 15 ;;
  o11 <-- get_sum 10 26 ;;
  ret [o1; o2; o3; o4; o5; o6; o7; o8; o9; o10; o11].

(** [main]: [SegmentTree segtree(1, 50)], then the calls. *)
Definition main : option (list Z) :=
  match SegmentTree_range 1 50 with
  | Some segtree =>
    match main_calls segtree with
    | Done printed _ => Some printed
    | _ => None
    end
  | None => None
  end.

(** ** Reference notions used to state the properties *)

(** [sum_range f lo hi] is the sum of [f p] for [lo <= p <= hi]. *)
Fixpoint sum_from (f : Z -> Z) (lo : Z) (n : nat) : Z :=
  match n with
  | O => 0
  | S n => f lo + sum_from f (lo + 1) n
  end.

Definition sum_range (f : Z -> Z) (lo hi : Z) : Z :=
  sum_from f lo (Z.to_nat (hi - lo + 1)).

(** The sum of a whole vector. *)
Definition sum_list (v : list Z) : Z := foldr Z.add 0 v.

(** Two integers are stored as the same [int]. *)
Definition eqm (a b : Z) : Prop := wrap a = wrap b.

(** ** The implicit tree and what it represents *)

(** The arrays of an object, seen as partial maps on indices. *)
Definition tr (s : SegmentTree) : Z -> option Z := vget (_tree s).
Definition tg (s : SegmentTree) : Z -> option Z := vget (_tags s).

(** [desc idx j]: node [j] lies in the subtree rooted at node [idx]. *)
Inductive desc (idx : Z) : Z -> Prop :=
| desc_self : desc idx idx
| desc_left j : desc idx j -> desc idx (2 * j)
| desc_right j : desc idx j -> desc idx (2 * j + 1).

(** [left + (right - left) / 2] on a well-formed range. *)
Definition midpoint (lb rb : Z) : Z := lb + (rb - lb) / 2.

(** [rep tr tg idx lb rb g]: the subtree at [idx], covering [[lb, rb]],
    stores point values [g] up to the tags still pending above [idx]:
    the aggregate of every node is the sum of [g] on its range, and the
    children of a node tagged [t] represent [g - t]. *)
Inductive rep (tr tg : Z -> option Z) : Z -> Z -> Z -> (Z -> Z) -> Prop :=
| rep_leaf idx p g t :
    tr idx = Some (wrap (g p)) ->
    tg idx = Some t ->
    rep tr tg idx p p g
| rep_node idx lb rb g t :
    lb < rb ->
    tg idx = Some t ->
    tr idx = Some (wrap (sum_range g lb rb)) ->
    rep tr tg (2 * idx) lb (midpoint lb rb) (fun p => g p - t) ->
    rep tr tg (2 * idx + 1) (midpoint lb rb + 1) rb (fun p => g p - t) ->
    rep tr tg idx lb rb g.

(** [frame idx s s']: [s'] differs from [s] only inside the subtree at
    [idx]; no array changed size. *)
Record frame (idx : Z) (s s' : SegmentTree) : Prop := MkFrame {
  frame_lb : _left_bound s' = _left_bound s;
  frame_rb : _right_bound s' = _right_bound s;
  frame_tree_len : length (_tree s') = length (_tree s);
  frame_tags_len : length (_tags s') = length (_tags s);
  frame_out : forall j, ~ desc idx j -> tr s' j = tr s j /\ tg s' j = tg s j
}.

(** A node range whose bounds, length and midpoint are all computed
    without overflow. *)
Definition int_range (lb rb : Z) : Prop :=
  is_int lb /\ is_int rb /\ rb - lb < int_max.

(** [fits fuel lb rb]: the call stack is deep enough for a node
    covering [[lb, rb]]. *)
Definition fits (fuel : nat) (lb rb : Z) : Prop :=
  rb - lb + 1 <= 2 ^ (Z.of_nat fuel - 1).

(** ** Validity, reachable objects and clients *)

(** Point values after [add(x, l, r)]. *)
Definition range_add (x l r : Z) (g : Z -> Z) : Z -> Z :=
  fun p => if (l <=? p) && (p <=? r) then g p + x else g p.

(** The value at index [p] of the vector given to the bulk constructor. *)
Definition vec_at (v : list Z) (p : Z) : Z := default 0 (vget v p).

(** A range the empty constructor is meant for: [int] bounds in order,
    and an allocation size [4 * (R - L + 1)] that is itself an [int]. *)
Definition valid_range (L R : Z) : Prop :=
  is_int L /\ is_int R /\ L <= R /\ 4 * (R - L + 1) <= int_max.

(** A vector the bulk constructor is meant for. *)
Definition valid_vec (v : list Z) : Prop :=
  (0 < length v)%nat /\ Forall is_int v /\ 4 * Z.of_nat (length v) <= int_max.

(** The precondition of [add] and [get_sum] on their range. *)
Definition in_bounds (s : SegmentTree) (l r : Z) : Prop :=
  _left_bound s <= l /\ l <= r /\ r <= _right_bound s.

(** [node i0 l0 r0 idx lb rb]: in the tree whose root [i0] covers
    [[l0, r0]], node [idx] exists and covers [[lb, rb]]. *)
Inductive node (i0 l0 r0 : Z) : Z -> Z -> Z -> Prop :=
| node_root : node i0 l0 r0 i0 l0 r0
| node_left idx lb rb :
    node i0 l0 r0 idx lb rb -> lb < rb ->
    node i0 l0 r0 (2 * idx) lb (midpoint lb rb)
| node_right idx lb rb :
    node i0 l0 r0 idx lb rb -> lb < rb ->
    node i0 l0 r0 (2 * idx + 1) (midpoint lb rb + 1) rb.

(** [pending tg L R idx lb rb T]: node [idx] covers [[lb, rb]] and [T] is
    the sum of the tags of its proper ancestors. *)
Inductive pending (tg : Z -> option Z) (L R : Z) : Z -> Z -> Z -> Z -> Prop :=
| pending_root : pending tg L R 1 L R 0
| pending_left idx lb rb T t :
    pending tg L R idx lb rb T -> lb < rb -> tg idx = Some t ->
    pending tg L R (2 * idx) lb (midpoint lb rb) (T + t)
| pending_right idx lb rb T t :
    pending tg L R idx lb rb T -> lb < rb -> tg idx = Some t ->
    pending tg L R (2 * idx + 1) (midpoint lb rb + 1) rb (T + t).

(** [Inv s g]: the object [s] is well formed and stores the point values
    [g] on its range. *)
Record Inv (s : SegmentTree) (g : Z -> Z) : Prop := MkInv {
  inv_range : valid_range (_left_bound s) (_right_bound s);
  inv_tree_len :
    Z.of_nat (length (_tree s)) = 4 * (_right_bound s - _left_bound s + 1);
  inv_tags_len :
    Z.of_nat (length (_tags s)) = 4 * (_right_bound s - _left_bound s + 1);
  inv_rep : rep (tr s) (tg s) 1 (_left_bound s) (_right_bound s) g
}.

(** [reachable s f]: [s] results from a valid construction followed by
    valid calls of [add] and [get_sum]; [f] gives the true point values,
    that is the initial ones plus every update applied so far. *)
Inductive reachable : SegmentTree -> (Z -> Z) -> Prop :=
| reach_range L R s :
    valid_range L R -> SegmentTree_range L R = Some s ->
    reachable s (fun _ => 0)
| reach_vec v s :
    valid_vec v -> SegmentTree_vec v = Some s ->
    reachable s (vec_at v)
| reach_add s f x l r s' :
    reachable s f -> is_int x -> in_bounds s l r ->
    add x l r s = Done tt s' ->
    reachable s' (range_add x l r f)
| reach_get_sum s f l r v s' :
    reachable s f -> in_bounds s l r ->
    get_sum l r s = Done v s' ->
    reachable s' f.

(** Calls made by a client, and the list of the values its queries
    return. *)
Inductive op : Type :=
| Add (value left right : Z)
| GetSum (left right : Z).

Fixpoint run (ops : list op) : M (list Z) :=
  match ops with
  | [] => ret []
  | Add x l r :: ops => add x l r ;;; run ops
  | GetSum l r :: ops => v <-- get_sum l r ;; vs <-- run ops ;; ret (v :: vs)
  end.

Definition valid_op (s : SegmentTree) (o : op) : Prop :=
  match o with
  | Add x l r => is_int x /\ in_bounds s l r
  | GetSum l r => in_bounds s l r
  end.

(** What the queries of [ops] return on point values [g]. *)
Fixpoint answers (g : Z -> Z) (ops : list op) : list Z :=
  match ops with
  | [] => []
  | Add x l r :: ops => answers (range_add x l r g) ops
  | GetSum l r :: ops => wrap (sum_range g l r) :: answers g ops
  end.

(** [slot_ok n idx lb rb]: arithmetic invariant relating the index of a
    node to the length of its range, in a tree over [n] points. *)
Definition slot_ok (n idx lb rb : Z) : Prop :=
  1 <= idx /\ idx + 1 <= 4 * n /\ (idx + 1) * (rb - lb) <= 2 * (n - 1).

(** The reading of "every node's aggregate is the true sum over its
    sub-range" and of "every leaf has a zero tag" on an object [s] with
    true point values [f]. *)
Definition aggregates_exact (s : SegmentTree) (f : Z -> Z) : Prop :=
  forall idx lb rb,
    node 1 (_left_bound s) (_right_bound s) idx lb rb ->
    tr s idx = Some (wrap (sum_range f lb rb)).

Definition leaf_tags_zero (s : SegmentTree) : Prop :=
  forall idx p,
    node 1 (_left_bound s) (_right_bound s) idx p p -> tg s idx = Some 0.

(** ** Notions for further properties *)

(** Number of points that [[a, b]] and [[lo, hi]] share. *)
Definition overlap (a b lo hi : Z) : Z :=
  Z.max 0 (Z.min b hi - Z.max a lo + 1).

(** Point values after the driver's loop
    [for (p = i; p < i + n; p++) add(sign * p, p, p)]. *)
Definition loop_values (sign i : Z) (n : nat) (g : Z -> Z) : Z -> Z :=
  fun p => if (i <=? p) && (p <? i + Z.of_nat n) then g p + sign * p else g p.

(** ** Concrete objects *)

(** [SegmentTree segtree(1, 50)] of the driver. *)
Definition demo_tree : SegmentTree :=
  MkSegmentTree 1 50 (replicate 200 0) (replicate 200 0).

(** [SegmentTree(0, 1)] after [add(1, 0, 1)]: the update stays at the
    root as a tag. *)
Definition tagged_root : SegmentTree :=
  MkSegmentTree 0 1 [0; 2; 0; 0; 0; 0; 0; 0] [0; 1; 0; 0; 0; 0; 0; 0].

(** [SegmentTree(0, 1)] after [add(1, 0, 0)]: the update reaches the
    leaf of point 0. *)
Definition tagged_leaf : SegmentTree :=
  MkSegmentTree 0 1 [0; 1; 1; 0; 0; 0; 0; 0] [0; 0; 1; 0; 0; 0; 0; 0].

(** A vector of [2^29] zeros: the least length whose allocation size
    [4 * len] is not an [int]. *)
Definition unallocatable_vec : list Z := replicate (Z.to_nat (2 ^ 29)) 0.

(** A vector of [2^32 + 1] elements, all zero but [v[1] = 1]: its
    [size() - 1] is 0 as an [int]. *)
Definition truncated_vec : list Z :=
  0 :: 1 :: replicate (Z.to_nat (2 ^ 32 - 1)) 0.

(** The tree over the single point 0 that [SegmentTree(truncated_vec)]
    builds. *)
Definition truncated_tree : SegmentTree :=
  MkSegmentTree 0 0 [0; 0; 0; 0] [0; 0; 0; 0].

(** What [SegmentTree(0, 1073741823)] allocates. *)
Definition overflown_tree : SegmentTree :=
  MkSegmentTree 0 (2 ^ 30 - 1) [] [].

(** ** Facts on 32-bit arithmetic *)

Section Int32Facts.

Lemma wrap_is_int z : is_int (wrap z).
Proof.
  unfold is_int, wrap, int_min, int_max, modulus.
  pose proof (Z.mod_pos_bound (z + 2 ^ 31) (2 ^ 32) ltac:(lia)). lia.
Qed.

Lemma wrap_small z : is_int z -> wrap z = z.
Proof.
  unfold is_int, wrap, int_min, int_max, modulus. intros H.
  rewrite Z.mod_small; lia.
Qed.

Lemma wrap_periodic a k : wrap (a + k * modulus) = wrap a.
Proof.
  unfold wrap. replace (a + k * modulus + 2 ^ 31) with (a + 2 ^ 31 + k * modulus) by ring.
  rewrite Z_mod_plus_full. reflexivity.
Qed.

Lemma wrap_decompose a : exists k, wrap a = a + k * modulus.
Proof.
  exists (- ((a + 2 ^ 31) / modulus)). unfold wrap.
  rewrite Z.mod_eq by (unfold modulus; lia). ring.
Qed.

Lemma eqm_iff a b : eqm a b <-> exists k, a = b + k * modulus.
Proof.
  unfold eqm. split.
  - intros H. destruct (wrap_decompose a) as [ka Ha].
    destruct (wrap_decompose b) as [kb Hb].
    exists (kb - ka). lia.
  - intros [k ->]. apply wrap_periodic.
Qed.

Lemma eqm_wrap a : eqm (wrap a) a.
Proof. apply eqm_iff. destruct (wrap_decompose a) as [k Hk]. eauto. Qed.

Global Instance eqm_equiv : Equivalence eqm.
Proof.
  unfold eqm. split.
  - intros x. reflexivity.
  - intros x y H. symmetry. exact H.
  - intros x y z H1 H2. congruence.
Qed.

Global Instance eqm_add : Proper (eqm ==> eqm ==> eqm) Z.add.
Proof.
  intros a a' Ha b b' Hb. apply eqm_iff in Ha, Hb. apply eqm_iff.
  destruct Ha as [k ->], Hb as [k' ->]. exists (k + k'). ring.
Qed.

Global Instance eqm_sub : Proper (eqm ==> eqm ==> eqm) Z.sub.
Proof.
  intros a a' Ha b b' Hb. apply eqm_iff in Ha, Hb. apply eqm_iff.
  destruct Ha as [k ->], Hb as [k' ->]. exists (k - k'). ring.
Qed.

Global Instance eqm_mul : Proper (eqm ==> eqm ==> eqm) Z.mul.
Proof.
  intros a a' Ha b b' Hb. apply eqm_iff in Ha, Hb. apply eqm_iff.
  destruct Ha as [k ->], Hb as [k' ->].
  exists (a' * k' + k * b' + k * k' * modulus). ring.
Qed.

Global Instance eqm_opp : Proper (eqm ==> eqm) Z.opp.
Proof.
  intros a a' Ha. apply eqm_iff in Ha. apply eqm_iff.
  destruct Ha as [k ->]. exists (- k). ring.
Qed.

Global Instance eqm_wrap_proper : Proper (eqm ==> eq) wrap.
Proof. intros a a' Ha. exact Ha. Qed.

Lemma wrap_wrap a : wrap (wrap a) = wrap a.
Proof. apply eqm_wrap. Qed.

Lemma eqm_int a b : is_int a -> is_int b -> eqm a b -> a = b.
Proof. unfold eqm. intros Ha Hb. rewrite !wrap_small by assumption. auto. Qed.

(** On a non-negative dividend, truncation and flooring agree. *)
Lemma quot2 d : 0 <= d -> 0 <= Z.quot d 2 /\ 2 * Z.quot d 2 <= d <= 2 * Z.quot d 2 + 1.
Proof.
  intros H. rewrite Z.quot_div_nonneg by lia.
  pose proof (Z.div_mod d 2 ltac:(lia)).
  pose proof (Z.mod_pos_bound d 2 ltac:(lia)). lia.
Qed.

End Int32Facts.

(** ** Facts on sums *)

Section Sums.

Lemma sum_from_app f lo n m :
  sum_from f lo (n + m) = sum_from f lo n + sum_from f (lo + Z.of_nat n) m.
Proof.
  revert lo. induction n as [|n IH]; intros lo.
  - cbn [sum_from Nat.add]. change (Z.of_nat 0) with 0.
    rewrite Z.add_0_r. reflexivity.
  - change (S n + m)%nat with (S (n + m)). cbn [sum_from]. rewrite IH.
    replace (lo + 1 + Z.of_nat n) with (lo + Z.of_nat (S n)) by lia. ring.
Qed.

Lemma sum_range_empty f lo hi : hi < lo -> sum_range f lo hi = 0.
Proof.
  intros H. unfold sum_range.
  replace (Z.to_nat (hi - lo + 1)) with O by lia. reflexivity.
Qed.

Lemma sum_range_one f p : sum_range f p p = f p.
Proof.
  unfold sum_range. replace (Z.to_nat (p - p + 1)) with 1%nat by lia.
  simpl. lia.
Qed.

Lemma sum_range_split f lo mid hi :
  lo - 1 <= mid <= hi ->
  sum_range f lo hi = sum_range f lo mid + sum_range f (mid + 1) hi.
Proof.
  intros H. unfold sum_range.
  replace (Z.to_nat (hi - lo + 1))
    with (Z.to_nat (mid - lo + 1) + Z.to_nat (hi - (mid + 1) + 1))%nat by lia.
  rewrite sum_from_app. do 2 f_equal. lia.
Qed.

Lemma sum_from_eqm f g lo n :
  (forall p, lo <= p < lo + Z.of_nat n -> eqm (f p) (g p)) ->
  eqm (sum_from f lo n) (sum_from g lo n).
Proof.
  revert lo. induction n as [|n IH]; intros lo H; cbn [sum_from].
  - reflexivity.
  - rewrite (H lo) by lia. rewrite (IH (lo + 1)); [reflexivity|].
    intros p Hp. apply H. lia.
Qed.

Lemma sum_range_eqm f g lo hi :
  (forall p, lo <= p <= hi -> eqm (f p) (g p)) ->
  eqm (sum_range f lo hi) (sum_range g lo hi).
Proof.
  intros H. apply sum_from_eqm. intros p Hp. apply H. lia.
Qed.

Lemma sum_from_ext f g lo n :
  (forall p, lo <= p < lo + Z.of_nat n -> f p = g p) ->
  sum_from f lo n = sum_from g lo n.
Proof.
  revert lo. induction n as [|n IH]; intros lo H; cbn [sum_from].
  - reflexivity.
  - rewrite (H lo) by lia. rewrite (IH (lo + 1)); [reflexivity|].
    intros p Hp. apply H. lia.
Qed.

Lemma sum_range_ext f g lo hi :
  (forall p, lo <= p <= hi -> f p = g p) ->
  sum_range f lo hi = sum_range g lo hi.
Proof.
  intros H. apply sum_from_ext. intros p Hp. apply H. lia.
Qed.

Lemma sum_from_plus f c lo n :
  sum_from (fun p => f p + c) lo n = sum_from f lo n + c * Z.of_nat n.
Proof.
  revert lo. induction n as [|n IH]; intros lo; cbn [sum_from].
  - lia.
  - rewrite IH. lia.
Qed.

Lemma sum_range_plus f c lo hi :
  lo <= hi + 1 ->
  sum_range (fun p => f p + c) lo hi = sum_range f lo hi + c * (hi - lo + 1).
Proof.
  intros H. unfold sum_range. rewrite sum_from_plus. f_equal. f_equal. lia.
Qed.

End Sums.

(** ** Subtrees and what they represent *)

Section Tree.

Lemma midpoint_bounds lb rb :
  lb < rb -> lb <= midpoint lb rb < rb.
Proof.
  intros H. unfold midpoint.
  pose proof (Z.div_mod (rb - lb) 2 ltac:(lia)).
  pose proof (Z.mod_pos_bound (rb - lb) 2 ltac:(lia)). lia.
Qed.

Lemma desc_ge a j : 1 <= a -> desc a j -> a <= j.
Proof. intros Ha H. induction H; lia. Qed.

Lemma desc_child_l a j : desc (2 * a) j -> desc a j.
Proof.
  intros H. induction H.
  - apply desc_left, desc_self.
  - apply desc_left, IHdesc.
  - apply desc_right, IHdesc.
Qed.

Lemma desc_child_r a j : desc (2 * a + 1) j -> desc a j.
Proof.
  intros H. induction H.
  - apply desc_right, desc_self.
  - apply desc_left, IHdesc.
  - apply desc_right, IHdesc.
Qed.

Lemma desc_inv a j :
  desc a j ->
  j = a \/ (exists j', j = 2 * j' /\ desc a j')
        \/ (exists j', j = 2 * j' + 1 /\ desc a j').
Proof. intros H. destruct H; eauto. Qed.

(** The ancestors of a node form a chain. *)
Lemma desc_chain a b j : desc a j -> desc b j -> desc a b \/ desc b a.
Proof.
  intros Ha. revert b. induction Ha as [|j Ha IH|j Ha IH]; intros b Hb.
  - right. exact Hb.
  - destruct (desc_inv _ _ Hb) as [E|[(j' & E & H)|(j' & E & H)]].
    + subst b. left. apply desc_left, Ha.
    + assert (j' = j) as -> by lia. apply IH, H.
    + lia.
  - destruct (desc_inv _ _ Hb) as [E|[(j' & E & H)|(j' & E & H)]].
    + subst b. left. apply desc_right, Ha.
    + lia.
    + assert (j' = j) as -> by lia. apply IH, H.
Qed.

Lemma desc_siblings i j : 1 <= i -> desc (2 * i) j -> desc (2 * i + 1) j -> False.
Proof.
  intros Hi Hl Hr. destruct (desc_chain _ _ _ Hl Hr) as [H|H].
  - destruct (desc_inv _ _ H) as [E|[(j' & E & H')|(j' & E & H')]]; try lia.
    assert (j' = i) as -> by lia.
    apply desc_ge in H'; lia.
  - apply desc_ge in H; lia.
Qed.

Lemma desc_not_parent_l i : 1 <= i -> ~ desc (2 * i) i.
Proof. intros Hi H. apply desc_ge in H; lia. Qed.

Lemma desc_not_parent_r i : 1 <= i -> ~ desc (2 * i + 1) i.
Proof. intros Hi H. apply desc_ge in H; lia. Qed.

Lemma rep_range tr tg idx lb rb g : rep tr tg idx lb rb g -> lb <= rb.
Proof. intros H. destruct H; lia. Qed.

(** The aggregate at the root of a subtree is the sum on its range. *)
Lemma rep_root tr tg idx lb rb g :
  rep tr tg idx lb rb g -> tr idx = Some (wrap (sum_range g lb rb)).
Proof.
  intros H. destruct H as [idx p g t Ha _|]; [|assumption].
  rewrite sum_range_one. exact Ha.
Qed.

Lemma rep_tag tr tg idx lb rb g :
  rep tr tg idx lb rb g -> is_Some (tg idx).
Proof. intros H. destruct H; eauto. Qed.

(** Only the stored [int]s matter: [g] may be changed by multiples of
    the modulus. *)
Lemma rep_eqm tr tg idx lb rb g g' :
  rep tr tg idx lb rb g ->
  (forall p, lb <= p <= rb -> eqm (g p) (g' p)) ->
  rep tr tg idx lb rb g'.
Proof.
  intros H. revert g'.
  induction H as [idx p g t Ha Ht|idx lb rb g t Hlt Ht Ha Hl IHl Hr IHr];
    intros g' Hg.
  - apply rep_leaf with t; [|exact Ht].
    rewrite Ha. f_equal. apply Hg. lia.
  - pose proof (midpoint_bounds lb rb Hlt) as Hm.
    apply rep_node with t; try assumption.
    + rewrite Ha. f_equal. apply sum_range_eqm. exact Hg.
    + apply IHl. intros p Hp. cbv beta. rewrite (Hg p) by lia. reflexivity.
    + apply IHr. intros p Hp. cbv beta. rewrite (Hg p) by lia. reflexivity.
Qed.

(** A subtree is untouched by writes outside it. *)
Lemma rep_frame tr tg tr' tg' idx lb rb g :
  rep tr tg idx lb rb g ->
  (forall j, desc idx j -> tr' j = tr j /\ tg' j = tg j) ->
  rep tr' tg' idx lb rb g.
Proof.
  intros H.
  induction H as [idx p g t Ha Ht|idx lb rb g t Hlt Ht Ha Hl IHl Hr IHr];
    intros Hsame.
  - destruct (Hsame idx (desc_self idx)) as [E1 E2].
    apply rep_leaf with t; congruence.
  - destruct (Hsame idx (desc_self idx)) as [E1 E2].
    apply rep_node with t; try congruence.
    + apply IHl. intros j Hj. apply Hsame, desc_child_l, Hj.
    + apply IHr. intros j Hj. apply Hsame, desc_child_r, Hj.
Qed.

End Tree.

(** ** Array accesses *)

Section Vectors.

Lemma vget_lt l i a : vget l i = Some a -> 0 <= i < Z.of_nat (length l).
Proof.
  unfold vget. case_decide; [|discriminate].
  intros Hl. apply lookup_lt_Some in Hl. lia.
Qed.

Lemma vget_is_Some l i : 0 <= i < Z.of_nat (length l) -> is_Some (vget l i).
Proof.
  intros H. unfold vget. rewrite decide_True by lia.
  apply lookup_lt_is_Some. lia.
Qed.

Lemma vset_exec l i x :
  0 <= i < Z.of_nat (length l) -> vset l i x = Some (<[Z.to_nat i := x]> l).
Proof. intros H. unfold vset. rewrite decide_True by lia. reflexivity. Qed.

Lemma vget_insert_eq l i x :
  0 <= i < Z.of_nat (length l) -> vget (<[Z.to_nat i := x]> l) i = Some x.
Proof.
  intros H. unfold vget. rewrite decide_True by lia.
  apply list_lookup_insert_eq. lia.
Qed.

Lemma vget_insert_ne l i j x :
  0 <= i -> i <> j -> vget (<[Z.to_nat i := x]> l) j = vget l j.
Proof.
  intros Hi Hne. unfold vget. case_decide; [|reflexivity].
  apply list_lookup_insert_ne. lia.
Qed.

Lemma vget_replicate n i :
  0 <= i < Z.of_nat n -> vget (replicate n 0) i = Some 0.
Proof.
  intros H. unfold vget. rewrite decide_True by lia.
  apply lookup_replicate_2. lia.
Qed.

End Vectors.

(** Rewriting of reads after writes; side conditions are index
  arithmetic. *)
Ltac vsimp :=
repeat first
  [ rewrite length_insert
  | rewrite vget_insert_eq by (rewrite ?length_insert; lia)
  | rewrite vget_insert_ne by lia
  | rewrite vset_exec by (rewrite ?length_insert; lia) ];
cbn [_tree _tags _left_bound _right_bound].

(** ** Bounds and index arithmetic without overflow *)

Section Exact.

Lemma mid_exact lb rb :
  int_range lb rb -> lb <= rb ->
  add32 lb (div32 (sub32 rb lb) 2) = midpoint lb rb.
Proof.
  unfold int_range, is_int, int_min, int_max. intros (Hl & Hr & Hd) Hle.
  unfold add32, div32, sub32, midpoint.
  rewrite (wrap_small (rb - lb)) by (unfold is_int, int_min, int_max; lia).
  pose proof (quot2 (rb - lb) ltac:(lia)) as Hq.
  rewrite (wrap_small (Z.quot (rb - lb) 2)) by (unfold is_int, int_min, int_max; lia).
  rewrite wrap_small by (unfold is_int, int_min, int_max; lia).
  rewrite Z.quot_div_nonneg by lia. reflexivity.
Qed.

Lemma succ_exact z : is_int z -> z < int_max -> add32 z 1 = z + 1.
Proof.
  unfold is_int, int_min, int_max. intros H1 H2. unfold add32.
  apply wrap_small. unfold is_int, int_min, int_max. lia.
Qed.

Lemma double_exact idx :
  1 <= idx -> 2 * idx + 1 <= int_max ->
  mul32 idx 2 = 2 * idx /\ add32 (2 * idx) 1 = 2 * idx + 1.
Proof.
  unfold int_max. intros H1 H2. unfold mul32, add32.
  rewrite !wrap_small by (unfold is_int, int_min, int_max; lia).
  lia.
Qed.

Lemma int_range_left lb rb :
  int_range lb rb -> lb < rb -> int_range lb (midpoint lb rb).
Proof.
  unfold int_range, is_int. intros (Hl & Hr & Hd) Hlt.
  pose proof (midpoint_bounds lb rb Hlt). lia.
Qed.

Lemma int_range_right lb rb :
  int_range lb rb -> lb < rb -> int_range (midpoint lb rb + 1) rb.
Proof.
  unfold int_range, is_int. intros (Hl & Hr & Hd) Hlt.
  pose proof (midpoint_bounds lb rb Hlt). lia.
Qed.

End Exact.

(** ** Frames *)

Section Frames.

Lemma frame_refl idx s : frame idx s s.
Proof. split; auto. Qed.

Lemma frame_trans idx s1 s2 s3 : frame idx s1 s2 -> frame idx s2 s3 -> frame idx s1 s3.
Proof.
  intros [a1 b1 c1 d1 e1] [a2 b2 c2 d2 e2]. split; try congruence.
  intros j Hj. destruct (e1 j Hj), (e2 j Hj). split; congruence.
Qed.

Lemma frame_weaken a b s s' :
  (forall j, desc a j -> desc b j) -> frame a s s' -> frame b s s'.
Proof.
  intros Hsub [a1 b1 c1 d1 e1]. split; try assumption.
  intros j Hj. apply e1. intros H. apply Hj, Hsub, H.
Qed.

Lemma frame_left idx s s' : frame (2 * idx) s s' -> frame idx s s'.
Proof. apply frame_weaken. apply desc_child_l. Qed.

Lemma frame_right idx s s' : frame (2 * idx + 1) s s' -> frame idx s s'.
Proof. apply frame_weaken. apply desc_child_r. Qed.

(** A subtree disjoint from the frame keeps what it represents. *)
Lemma rep_preserved a idx s s' lb rb g :
  frame a s s' ->
  (forall j, desc idx j -> ~ desc a j) ->
  rep (tr s) (tg s) idx lb rb g ->
  rep (tr s') (tg s') idx lb rb g.
Proof.
  intros F Hdis H. apply (rep_frame _ _ _ _ _ _ _ _ H).
  intros j Hj. apply (frame_out _ _ _ F). apply Hdis, Hj.
Qed.

End Frames.

(** ** The lazy-tag discipline *)

Section PushDown.

(** Adding [d] to the tag of a node and [d] times its size to its
    aggregate adds [d] to every point value the subtree represents. *)
Lemma rep_bump tr tg tr' tg' idx lb rb g d t a e t' :
  1 <= idx -> rep tr tg idx lb rb g ->
  tg idx = Some t -> tg' idx = Some t' -> eqm t' (t + d) ->
  tr idx = Some a -> tr' idx = Some (wrap e) ->
  eqm e (a + d * (rb - lb + 1)) ->
  (forall j, desc idx j -> j <> idx -> tr' j = tr j /\ tg' j = tg j) ->
  rep tr' tg' idx lb rb (fun p => g p + d).
Proof.
  intros Hidx H Ht Ht' Et Ha Ha' Ea Hsame.
  destruct H as [idx p g t0 Ha0 Ht0|idx lb rb g t0 Hlt Ht0 Ha0 Hl Hr].
  - apply rep_leaf with t'; [|exact Ht'].
    rewrite Ha'. f_equal. change (eqm e (g p + d)). rewrite Ea.
    assert (a = wrap (g p)) as -> by congruence.
    rewrite eqm_wrap. replace (p - p + 1) with 1 by lia.
    rewrite Z.mul_1_r. reflexivity.
  - assert (t0 = t) as -> by congruence.
    assert (a = wrap (sum_range g lb rb)) as -> by congruence.
    pose proof (midpoint_bounds lb rb Hlt) as Hm.
    apply rep_node with t'; try assumption.
    + rewrite Ha'. f_equal. change (eqm e (sum_range (fun p => g p + d) lb rb)).
      rewrite Ea, eqm_wrap, sum_range_plus by lia. reflexivity.
    + apply rep_eqm with (fun p => g p - t).
      * apply (rep_frame _ _ _ _ _ _ _ _ Hl). intros j Hj.
        apply Hsame; [apply desc_child_l, Hj|]. apply desc_ge in Hj; lia.
      * intros p Hp. cbv beta. rewrite Et.
        replace (g p + d - (t + d)) with (g p - t) by ring. reflexivity.
    + apply rep_eqm with (fun p => g p - t).
      * apply (rep_frame _ _ _ _ _ _ _ _ Hr). intros j Hj.
        apply Hsame; [apply desc_child_r, Hj|]. apply desc_ge in Hj; lia.
      * intros p Hp. cbv beta. rewrite Et.
        replace (g p + d - (t + d)) with (g p - t) by ring. reflexivity.
Qed.

(** After the push-down block of an inner node, the node's tag is zero
    and both children represent the same point values as the node. *)
Lemma push_down_spec s idx lb rb g :
  1 <= idx -> Z.of_nat (length (_tree s)) <= int_max -> lb < rb ->
  rep (tr s) (tg s) idx lb rb g ->
  exists s',
    push_down idx lb rb (midpoint lb rb) s = Done tt s' /\
    frame idx s s' /\
    tg s' idx = Some 0 /\
    tr s' idx = Some (wrap (sum_range g lb rb)) /\
    rep (tr s') (tg s') (2 * idx) lb (midpoint lb rb) g /\
    rep (tr s') (tg s') (2 * idx + 1) (midpoint lb rb + 1) rb g.
Proof.
  intros Hidx Hlen Hlt H.
  destruct H as [idx p g t0 Ha0 Ht0|idx lb rb g t Hlt' Ht Ha Hl Hr]; [lia|].
  pose proof (midpoint_bounds lb rb Hlt) as Hm.
  destruct (rep_tag _ _ _ _ _ _ Hl) as [c1 Hc1].
  destruct (rep_tag _ _ _ _ _ _ Hr) as [c2 Hc2].
  pose proof (rep_root _ _ _ _ _ _ Hl) as Ha1.
  pose proof (rep_root _ _ _ _ _ _ Hr) as Ha2.
  pose proof (vget_lt _ _ _ Ha2) as Hin.
  destruct (double_exact idx Hidx ltac:(lia)) as [E2 E3].
  unfold push_down. rewrite E2, E3.
  unfold bind at 1. unfold tags_at at 1. fold (tg s). rewrite Ht.
  destruct (Z.eqb_spec t 0) as [->|Hne]; cbn [negb andb].
  - exists s. split; [reflexivity|]. split; [apply frame_refl|].
    repeat split; try assumption.
    + apply (rep_eqm _ _ _ _ _ _ _ Hl). intros p Hp. cbv beta.
      rewrite Z.sub_0_r. reflexivity.
    + apply (rep_eqm _ _ _ _ _ _ _ Hr). intros p Hp. cbv beta.
      rewrite Z.sub_0_r. reflexivity.
  - destruct (Z.eqb_spec lb rb) as [->|_]; [lia|]. cbn [negb].
    destruct s as [L R tree tags]. unfold tr, tg in *. cbn [_tree _tags] in *.
    pose proof (vget_lt _ _ _ Ht) as Hi0.
    pose proof (vget_lt _ _ _ Hc1) as Hi1.
    pose proof (vget_lt _ _ _ Hc2) as Hi2.
    pose proof (vget_lt _ _ _ Ha) as Hi3.
    pose proof (vget_lt _ _ _ Ha1) as Hi4.
    unfold bind, tags_at, tree_at, set_tags, set_tree. cbn [_tree _tags _left_bound _right_bound].
    repeat first [ rewrite Hc1 | rewrite Hc2 | rewrite Ht | rewrite Ha1 | rewrite Ha2 | progress vsimp | progress cbv beta iota ].
    eexists. split; [reflexivity|].
    cbn [_tree _tags].
    assert (Hout : forall j, j <> idx -> j <> 2 * idx -> j <> 2 * idx + 1 ->
      vget (<[Z.to_nat (2 * idx + 1):=add32
               (wrap (sum_range (λ p : Z, g p - t) (midpoint lb rb + 1) rb))
               (mul32 t (sub32 rb (midpoint lb rb)))]>
            (<[Z.to_nat (2 * idx):=add32
               (wrap (sum_range (λ p : Z, g p - t) lb (midpoint lb rb)))
               (mul32 t (add32 (sub32 (midpoint lb rb) lb) 1))]> tree)) j
      = vget tree j /\
      vget (<[Z.to_nat idx:=0]>
             (<[Z.to_nat (2 * idx + 1):=add32 c2 t]>
               (<[Z.to_nat (2 * idx):=add32 c1 t]> tags))) j = vget tags j).
    { intros j H1 H2 H3. vsimp. split; reflexivity. }
    split; [|split; [|split; [|split]]].
    + split; cbn [_tree _tags _left_bound _right_bound]; vsimp; try reflexivity.
      intros j Hj. apply Hout.
      * intros ->. apply Hj, desc_self.
      * intros ->. apply Hj, desc_left, desc_self.
      * intros ->. apply Hj, desc_right, desc_self.
    + vsimp. reflexivity.
    + vsimp. exact Ha.
    + apply rep_eqm with (fun p => g p - t + t);
        [|intros p Hp; cbv beta;
           replace (g p - t + t) with (g p) by ring; reflexivity].
      eapply (rep_bump _ _ _ _ (2 * idx) _ _ _ t c1 _ _ _ ltac:(lia) Hl Hc1).
        -- vsimp. reflexivity.
        -- apply eqm_wrap.
        -- exact Ha1.
        -- vsimp. unfold add32 at 1. reflexivity.
        -- unfold mul32, add32, sub32. rewrite !eqm_wrap. reflexivity.
        -- intros j Hj Hne'. apply Hout; [apply desc_ge in Hj; lia|lia|].
           intros ->. apply (desc_siblings idx (2 * idx + 1)); [lia|exact Hj|apply desc_self].
    + apply rep_eqm with (fun p => g p - t + t);
        [|intros p Hp; cbv beta;
           replace (g p - t + t) with (g p) by ring; reflexivity].
      eapply (rep_bump _ _ _ _ (2 * idx + 1) _ _ _ t c2 _ _ _ ltac:(lia) Hr Hc2).
        -- vsimp. reflexivity.
        -- apply eqm_wrap.
        -- exact Ha2.
        -- vsimp. unfold add32 at 1. reflexivity.
        -- unfold mul32, add32, sub32. rewrite !eqm_wrap.
           replace (rb - (midpoint lb rb + 1) + 1) with (rb - midpoint lb rb) by ring.
           reflexivity.
        -- intros j Hj Hne'. apply Hout; [apply desc_ge in Hj; lia| |lia].
           intros ->. apply (desc_siblings idx (2 * idx)); [lia|apply desc_self|exact Hj].
Qed.

End PushDown.

(** ** The recursive members *)

Section Members.

Lemma fits_pos fuel lb rb : lb <= rb -> fits fuel lb rb -> fuel <> O.
Proof.
  unfold fits. intros Hle H ->. change (Z.of_nat 0 - 1) with (-1) in H.
  rewrite Z.pow_neg_r in H by lia. lia.
Qed.

Lemma fits_children fuel lb rb :
  lb < rb -> fits (S fuel) lb rb ->
  fits fuel lb (midpoint lb rb) /\ fits fuel (midpoint lb rb + 1) rb.
Proof.
  unfold fits, midpoint. intros Hlt H.
  replace (Z.of_nat (S fuel) - 1) with (Z.of_nat fuel) in H by lia.
  destruct fuel as [|k].
  - change (2 ^ Z.of_nat 0) with 1 in H. lia.
  - replace (Z.of_nat (S k) - 1) with (Z.of_nat k) by lia.
    rewrite Nat2Z.inj_succ, Z.pow_succ_r in H by lia.
    pose proof (Z.div_mod (rb - lb) 2 ltac:(lia)).
    pose proof (Z.mod_pos_bound (rb - lb) 2 ltac:(lia)). lia.
Qed.

Lemma sum_range_clip g l r lb mid rb :
  lb <= mid < rb ->
  sum_range g (Z.max l lb) (Z.min r mid)
    + sum_range g (Z.max l (mid + 1)) (Z.min r rb)
  = sum_range g (Z.max l lb) (Z.min r rb).
Proof.
  intros Hm. destruct (Z.le_gt_cases l mid) as [Cl|Cl];
    [destruct (Z.le_gt_cases (mid + 1) r) as [Cr|Cr]|].
  - rewrite (Z.min_r r mid), (Z.max_r l (mid + 1)) by lia.
    symmetry. apply sum_range_split. lia.
  - rewrite (sum_range_empty g (Z.max l (mid + 1))) by lia.
    rewrite !(Z.min_l r) by lia. lia.
  - rewrite (sum_range_empty g (Z.max l lb)) by lia.
    rewrite !(Z.max_l l) by lia. lia.
Qed.

Lemma add32_wrap a b : add32 (wrap a) (wrap b) = wrap (a + b).
Proof.
  unfold add32. change (eqm (wrap a + wrap b) (a + b)).
  rewrite !eqm_wrap. reflexivity.
Qed.

Lemma rep_untagged tr tg idx lb rb g :
  lb < rb ->
  tg idx = Some 0 ->
  tr idx = Some (wrap (sum_range g lb rb)) ->
  rep tr tg (2 * idx) lb (midpoint lb rb) g ->
  rep tr tg (2 * idx + 1) (midpoint lb rb + 1) rb g ->
  rep tr tg idx lb rb g.
Proof.
  intros Hlt Ht Ha Hl Hr. apply rep_node with 0; try assumption.
  - apply (rep_eqm _ _ _ _ _ _ _ Hl). intros p Hp. cbv beta.
    rewrite Z.sub_0_r. reflexivity.
  - apply (rep_eqm _ _ _ _ _ _ _ Hr). intros p Hp. cbv beta.
    rewrite Z.sub_0_r. reflexivity.
Qed.

Lemma _get_sum_spec fuel : forall s idx l r lb rb g,
  1 <= idx -> Z.of_nat (length (_tree s)) <= int_max ->
  int_range lb rb -> fits fuel lb rb ->
  l <= rb -> lb <= r ->
  rep (tr s) (tg s) idx lb rb g ->
  exists s',
    _get_sum fuel idx l r lb rb s
      = Done (wrap (sum_range g (Z.max l lb) (Z.min r rb))) s' /\
    frame idx s s' /\
    rep (tr s') (tg s') idx lb rb g.
Proof.
  induction fuel as [|fuel IH]; intros s idx l r lb rb g Hidx Hlen Hir Hfit Hl Hr H.
  { exfalso. apply (fits_pos _ _ _ (rep_range _ _ _ _ _ _ H) Hfit). reflexivity. }
  pose proof (rep_range _ _ _ _ _ _ H) as Hle.
  cbn [_get_sum].
  destruct ((l <=? lb) && (rb <=? r)) eqn:Hc.
  { apply andb_true_iff in Hc. destruct Hc as [C1 C2].
    apply Z.leb_le in C1, C2.
    exists s. rewrite Z.max_r, Z.min_r by lia.
    unfold tree_at. fold (tr s). rewrite (rep_root _ _ _ _ _ _ H).
    split; [reflexivity|]. split; [apply frame_refl|exact H]. }
  assert (Hlt : lb < rb).
  { apply andb_false_iff in Hc. rewrite !Z.leb_gt in Hc. lia. }
  clear Hc.
  pose proof (midpoint_bounds lb rb Hlt) as Hm.
  destruct (fits_children _ _ _ Hlt Hfit) as [FitL FitR].
  pose proof (int_range_left _ _ Hir Hlt) as IrL.
  pose proof (int_range_right _ _ Hir Hlt) as IrR.
  rewrite (mid_exact lb rb Hir Hle).
  rewrite (succ_exact (midpoint lb rb)) by (destruct Hir as (? & ? & ?); unfold is_int in *; lia).
  destruct (push_down_spec s idx lb rb g Hidx Hlen Hlt H)
    as (s1 & Hpush & F1 & Htg1 & Htr1 & Hl1 & Hr1).
  assert (Hlen1 : Z.of_nat (length (_tree s1)) <= int_max)
    by (rewrite (frame_tree_len _ _ _ F1); exact Hlen).
  pose proof (vget_lt _ _ _ (rep_root _ _ _ _ _ _ Hr1)) as Hin.
  destruct (double_exact idx Hidx ltac:(lia)) as [E2 E3].
  rewrite E2, E3.
  unfold bind at 1. rewrite Hpush.
  (* left child *)
  assert (exists s2,
    (if l <=? midpoint lb rb
     then s0 <-- _get_sum fuel (2 * idx) l r lb (midpoint lb rb) ;; ret (add32 0 s0)
     else ret 0) s1
      = Done (wrap (sum_range g (Z.max l lb) (Z.min r (midpoint lb rb)))) s2 /\
    frame idx s1 s2 /\
    tg s2 idx = Some 0 /\
    tr s2 idx = Some (wrap (sum_range g lb rb)) /\
    rep (tr s2) (tg s2) (2 * idx) lb (midpoint lb rb) g /\
    rep (tr s2) (tg s2) (2 * idx + 1) (midpoint lb rb + 1) rb g)
    as (s2 & Hleft & F2 & Htg2 & Htr2 & Hl2 & Hr2).
  { destruct (Z.leb_spec l (midpoint lb rb)) as [C|C].
    - destruct (IH s1 (2 * idx) l r lb (midpoint lb rb) g
                  ltac:(lia) Hlen1 IrL FitL C Hr Hl1) as (s2 & Hrun & F & Hrep).
      exists s2. unfold bind. rewrite Hrun. unfold ret, add32.
      rewrite Z.add_0_l, wrap_wrap.
      destruct (frame_out _ _ _ F idx (desc_not_parent_l idx Hidx)) as [Ea Et].
      split; [reflexivity|]. split; [apply frame_left, F|].
      split; [congruence|]. split; [congruence|]. split; [exact Hrep|].
      apply (rep_preserved _ _ _ _ _ _ _ F); [|exact Hr1].
      intros j Hj Hj'. apply (desc_siblings idx j Hidx Hj' Hj).
    - exists s1. unfold ret.
      rewrite sum_range_empty by lia. change (wrap 0) with 0.
      split; [reflexivity|]. split; [apply frame_refl|]. auto. }
  unfold bind at 1. rewrite Hleft.
  assert (Hlen2 : Z.of_nat (length (_tree s2)) <= int_max)
    by (rewrite (frame_tree_len _ _ _ F2); exact Hlen1).
  (* right child *)
  set (sum1 := wrap (sum_range g (Z.max l lb) (Z.min r (midpoint lb rb)))).
  assert (exists s3,
    (if midpoint lb rb + 1 <=? r
     then s0 <-- _get_sum fuel (2 * idx + 1) l r (midpoint lb rb + 1) rb ;;
          ret (add32 sum1 s0)
     else ret sum1) s2
      = Done (wrap (sum_range g (Z.max l lb) (Z.min r rb))) s3 /\
    frame idx s2 s3 /\
    tg s3 idx = Some 0 /\
    tr s3 idx = Some (wrap (sum_range g lb rb)) /\
    rep (tr s3) (tg s3) (2 * idx) lb (midpoint lb rb) g /\
    rep (tr s3) (tg s3) (2 * idx + 1) (midpoint lb rb + 1) rb g)
    as (s3 & Hright & F3 & Htg3 & Htr3 & Hl3 & Hr3).
  { rewrite <- (sum_range_clip g l r lb (midpoint lb rb) rb Hm).
    destruct (Z.leb_spec (midpoint lb rb + 1) r) as [C|C].
    - destruct (IH s2 (2 * idx + 1) l r (midpoint lb rb + 1) rb g
                  ltac:(lia) Hlen2 IrR FitR Hl C Hr2) as (s3 & Hrun & F & Hrep).
      exists s3. unfold bind. rewrite Hrun. unfold ret, sum1.
      rewrite add32_wrap.
      destruct (frame_out _ _ _ F idx (desc_not_parent_r idx Hidx)) as [Ea Et].
      split; [reflexivity|]. split; [apply frame_right, F|].
      split; [congruence|]. split; [congruence|]. split; [|exact Hrep].
      apply (rep_preserved _ _ _ _ _ _ _ F); [|exact Hl2].
      intros j Hj Hj'. apply (desc_siblings idx j Hidx Hj Hj').
    - exists s2. unfold ret, sum1.
      rewrite (sum_range_empty g (Z.max l (midpoint lb rb + 1))) by lia.
      rewrite Z.add_0_r.
      split; [reflexivity|]. split; [apply frame_refl|]. auto. }
  unfold bind at 1. rewrite Hright. unfold ret.
  exists s3. split; [reflexivity|].
  split; [exact (frame_trans _ _ _ _ F1 (frame_trans _ _ _ _ F2 F3))|].
  apply rep_untagged; assumption.
Qed.

Lemma range_add_in x l r g p : l <= p <= r -> range_add x l r g p = g p + x.
Proof.
  intros H. unfold range_add.
  destruct (Z.leb_spec l p); [|lia]. destruct (Z.leb_spec p r); [|lia].
  reflexivity.
Qed.

Lemma range_add_out x l r g p : p < l \/ r < p -> range_add x l r g p = g p.
Proof.
  intros H. unfold range_add.
  destruct (Z.leb_spec l p); [|reflexivity].
  destruct (Z.leb_spec p r); [lia|reflexivity].
Qed.

Lemma set_tree_spec s idx x :
  is_Some (tr s idx) ->
  exists s',
    set_tree idx x s = Done tt s' /\
    tr s' idx = Some x /\
    (forall j, j <> idx -> tr s' j = tr s j) /\
    (forall j, tg s' j = tg s j) /\
    frame idx s s'.
Proof.
  intros [a Ha]. pose proof (vget_lt _ _ _ Ha) as Hi.
  destruct s as [L R tree tags]. unfold tr, tg, set_tree in *.
  cbn [_tree _tags _left_bound _right_bound] in *. vsimp.
  eexists. split; [reflexivity|]. cbn [_tree _tags]. vsimp.
  split; [reflexivity|]. split; [intros j Hj; vsimp; reflexivity|].
  split; [reflexivity|].
  split; cbn [_tree _tags _left_bound _right_bound]; vsimp; try reflexivity.
  intros j Hj. unfold tr, tg. cbn [_tree _tags].
  rewrite vget_insert_ne; [auto|lia|]. intros ->. apply Hj, desc_self.
Qed.

Lemma _add_spec fuel : forall s x idx l r lb rb g,
  1 <= idx -> Z.of_nat (length (_tree s)) <= int_max ->
  int_range lb rb -> fits fuel lb rb ->
  l <= rb -> lb <= r ->
  rep (tr s) (tg s) idx lb rb g ->
  exists s',
    _add fuel x idx l r lb rb s = Done tt s' /\
    frame idx s s' /\
    rep (tr s') (tg s') idx lb rb (range_add x l r g).
Proof.
  induction fuel as [|fuel IH]; intros s x idx l r lb rb g Hidx Hlen Hir Hfit Hl Hr H.
  { exfalso. apply (fits_pos _ _ _ (rep_range _ _ _ _ _ _ H) Hfit). reflexivity. }
  pose proof (rep_range _ _ _ _ _ _ H) as Hle.
  cbn [_add].
  destruct ((l <=? lb) && (rb <=? r)) eqn:Hc.
  { apply andb_true_iff in Hc. destruct Hc as [C1 C2].
    apply Z.leb_le in C1, C2.
    pose proof (rep_root _ _ _ _ _ _ H) as Ha.
    destruct (rep_tag _ _ _ _ _ _ H) as [t Ht].
    pose proof (vget_lt _ _ _ Ha) as Hi1.
    pose proof (vget_lt _ _ _ Ht) as Hi2.
    assert (Hb := fun tr' tg' t' e => rep_bump (tr s) (tg s) tr' tg' idx lb rb g x t (wrap (sum_range g lb rb)) e t' Hidx H Ht).
    destruct s as [L R tree tags]. unfold tr, tg in *.
    cbn [_tree _tags] in *.
    unfold bind, tags_at, tree_at, set_tags, set_tree.
    cbn [_tree _tags _left_bound _right_bound].
    repeat first [ rewrite Ha | rewrite Ht | progress vsimp | progress cbv beta iota ].
    eexists. split; [reflexivity|]. cbn [_tree _tags]. split.
    - split; cbn [_tree _tags _left_bound _right_bound]; vsimp; try reflexivity.
      intros j Hj. unfold tr, tg. cbn [_tree _tags].
      assert (j <> idx) by (intros ->; apply Hj, desc_self).
      vsimp. auto.
    - apply rep_eqm with (fun p => g p + x).
      + eapply Hb.
        * vsimp. reflexivity.
        * apply eqm_wrap.
        * exact Ha.
        * vsimp. unfold add32 at 1. reflexivity.
        * unfold mul32, add32, sub32. rewrite !eqm_wrap. reflexivity.
        * intros j Hj Hne. vsimp. auto.
      + intros p Hp. rewrite range_add_in by lia. reflexivity. }
  assert (Hlt : lb < rb).
  { apply andb_false_iff in Hc. rewrite !Z.leb_gt in Hc. lia. }
  clear Hc.
  pose proof (midpoint_bounds lb rb Hlt) as Hm.
  destruct (fits_children _ _ _ Hlt Hfit) as [FitL FitR].
  pose proof (int_range_left _ _ Hir Hlt) as IrL.
  pose proof (int_range_right _ _ Hir Hlt) as IrR.
  rewrite (mid_exact lb rb Hir Hle).
  rewrite (succ_exact (midpoint lb rb)) by (destruct Hir as (? & ? & ?); unfold is_int in *; lia).
  destruct (push_down_spec s idx lb rb g Hidx Hlen Hlt H)
    as (s1 & Hpush & F1 & Htg1 & Htr1 & Hl1 & Hr1).
  assert (Hlen1 : Z.of_nat (length (_tree s1)) <= int_max)
    by (rewrite (frame_tree_len _ _ _ F1); exact Hlen).
  pose proof (vget_lt _ _ _ (rep_root _ _ _ _ _ _ Hr1)) as Hin.
  destruct (double_exact idx Hidx ltac:(lia)) as [E2 E3].
  rewrite E2, E3.
  unfold bind at 1. rewrite Hpush.
  set (g' := range_add x l r g).
  (* left child *)
  assert (exists s2,
    (if l <=? midpoint lb rb
     then _add fuel x (2 * idx) l r lb (midpoint lb rb)
     else ret tt) s1 = Done tt s2 /\
    frame idx s1 s2 /\
    tg s2 idx = Some 0 /\
    rep (tr s2) (tg s2) (2 * idx) lb (midpoint lb rb) g' /\
    rep (tr s2) (tg s2) (2 * idx + 1) (midpoint lb rb + 1) rb g)
    as (s2 & Hleft & F2 & Htg2 & Hl2 & Hr2).
  { destruct (Z.leb_spec l (midpoint lb rb)) as [C|C].
    - destruct (IH s1 x (2 * idx) l r lb (midpoint lb rb) g
                  ltac:(lia) Hlen1 IrL FitL C Hr Hl1) as (s2 & Hrun & F & Hrep).
      exists s2.
      destruct (frame_out _ _ _ F idx (desc_not_parent_l idx Hidx)) as [Ea Et].
      split; [exact Hrun|]. split; [apply frame_left, F|].
      split; [congruence|]. split; [exact Hrep|].
      apply (rep_preserved _ _ _ _ _ _ _ F); [|exact Hr1].
      intros j Hj Hj'. apply (desc_siblings idx j Hidx Hj' Hj).
    - exists s1. unfold ret.
      split; [reflexivity|]. split; [apply frame_refl|].
      split; [exact Htg1|]. split; [|exact Hr1].
      apply (rep_eqm _ _ _ _ _ _ _ Hl1). intros p Hp. unfold g'.
      rewrite range_add_out by lia. reflexivity. }
  unfold bind at 1. rewrite Hleft.
  assert (Hlen2 : Z.of_nat (length (_tree s2)) <= int_max)
    by (rewrite (frame_tree_len _ _ _ F2); exact Hlen1).
  (* right child *)
  assert (exists s3,
    (if midpoint lb rb + 1 <=? r
     then _add fuel x (2 * idx + 1) l r (midpoint lb rb + 1) rb
     else ret tt) s2 = Done tt s3 /\
    frame idx s2 s3 /\
    tg s3 idx = Some 0 /\
    rep (tr s3) (tg s3) (2 * idx) lb (midpoint lb rb) g' /\
    rep (tr s3) (tg s3) (2 * idx + 1) (midpoint lb rb + 1) rb g')
    as (s3 & Hright & F3 & Htg3 & Hl3 & Hr3).
  { destruct (Z.leb_spec (midpoint lb rb + 1) r) as [C|C].
    - destruct (IH s2 x (2 * idx + 1) l r (midpoint lb rb + 1) rb g
                  ltac:(lia) Hlen2 IrR FitR Hl C Hr2) as (s3 & Hrun & F & Hrep).
      exists s3.
      destruct (frame_out _ _ _ F idx (desc_not_parent_r idx Hidx)) as [Ea Et].
      split; [exact Hrun|]. split; [apply frame_right, F|].
      split; [congruence|]. split; [|exact Hrep].
      apply (rep_preserved _ _ _ _ _ _ _ F); [|exact Hl2].
      intros j Hj Hj'. apply (desc_siblings idx j Hidx Hj Hj').
    - exists s2. unfold ret.
      split; [reflexivity|]. split; [apply frame_refl|].
      split; [exact Htg2|]. split; [exact Hl2|].
      apply (rep_eqm _ _ _ _ _ _ _ Hr2). intros p Hp. unfold g'.
      rewrite range_add_out by lia. reflexivity. }
  unfold bind at 1. rewrite Hright.
  (* the aggregate is recomputed from the children *)
  pose proof (rep_root _ _ _ _ _ _ Hl3) as Ha.
  pose proof (rep_root _ _ _ _ _ _ Hr3) as Hb.
  unfold bind, tree_at.
  change (vget (_tree s3)) with (tr s3). rewrite Ha. cbv beta iota.
  change (vget (_tree s3)) with (tr s3). rewrite Hb. cbv beta iota.
  rewrite add32_wrap, <- sum_range_split by lia.
  assert (Hsome : is_Some (tr s3 idx)).
  { apply vget_is_Some. apply vget_lt in Ha. lia. }
  destruct (set_tree_spec s3 idx (wrap (sum_range g' lb rb)) Hsome)
    as (s4 & Hset & Hnew & Hother & Htags & F4).
  exists s4. split; [exact Hset|].
  split; [exact (frame_trans _ _ _ _ F1 (frame_trans _ _ _ _ F2 (frame_trans _ _ _ _ F3 F4)))|].
  apply rep_untagged; try assumption.
  - rewrite Htags. exact Htg3.
  - apply (rep_frame _ _ _ _ _ _ _ _ Hl3). intros j Hj.
    split; [|apply Htags]. apply Hother. apply desc_ge in Hj; lia.
  - apply (rep_frame _ _ _ _ _ _ _ _ Hr3). intros j Hj.
    split; [|apply Htags]. apply Hother. apply desc_ge in Hj; lia.
Qed.

End Members.

(** ** Construction *)

Section Construction.

Lemma slot_root L R : L <= R -> slot_ok (R - L + 1) 1 L R.
Proof. unfold slot_ok. lia. Qed.

Lemma slot_left n idx lb rb :
  slot_ok n idx lb rb -> lb < rb -> slot_ok n (2 * idx) lb (midpoint lb rb).
Proof.
  unfold slot_ok, midpoint. intros (H1 & H2 & H3) Hlt.
  pose proof (Z.div_mod (rb - lb) 2 ltac:(lia)).
  pose proof (Z.mod_pos_bound (rb - lb) 2 ltac:(lia)).
  replace (lb + (rb - lb) / 2 - lb) with ((rb - lb) / 2) by ring.
  nia.
Qed.

Lemma slot_right n idx lb rb :
  slot_ok n idx lb rb -> lb < rb ->
  slot_ok n (2 * idx + 1) (midpoint lb rb + 1) rb.
Proof.
  unfold slot_ok, midpoint. intros (H1 & H2 & H3) Hlt.
  pose proof (Z.div_mod (rb - lb) 2 ltac:(lia)).
  pose proof (Z.mod_pos_bound (rb - lb) 2 ltac:(lia)).
  replace (rb - (lb + (rb - lb) / 2 + 1)) with (rb - lb - (rb - lb) / 2 - 1) by ring.
  nia.
Qed.

Lemma node_slot L R idx lb rb :
  L <= R -> node 1 L R idx lb rb ->
  slot_ok (R - L + 1) idx lb rb /\ L <= lb /\ lb <= rb /\ rb <= R.
Proof.
  intros HLR H. induction H as [|idx lb rb H IH Hlt|idx lb rb H IH Hlt].
  - split; [apply slot_root; exact HLR|lia].
  - destruct IH as (S & B). pose proof (midpoint_bounds lb rb Hlt).
    split; [apply slot_left; assumption|lia].
  - destruct IH as (S & B). pose proof (midpoint_bounds lb rb Hlt).
    split; [apply slot_right; assumption|lia].
Qed.

Lemma sum_range_zero lo hi : sum_range (fun _ => 0) lo hi = 0.
Proof.
  unfold sum_range. generalize (Z.to_nat (hi - lo + 1)) as k. revert lo.
  intros lo k. revert lo. induction k as [|k IH]; intros lo; cbn [sum_from].
  - reflexivity.
  - rewrite IH. reflexivity.
Qed.

(** Freshly allocated arrays represent the all-zero point values. *)
Lemma rep_zero tr tg n :
  (forall j, 0 <= j < 4 * n -> tr j = Some 0 /\ tg j = Some 0) ->
  forall (k : nat) idx lb rb,
    (Z.to_nat (rb - lb) < k)%nat -> lb <= rb -> slot_ok n idx lb rb ->
    rep tr tg idx lb rb (fun _ => 0).
Proof.
  intros Hz. induction k as [|k IH]; intros idx lb rb Hk Hle Hs; [lia|].
  destruct (Hz idx ltac:(unfold slot_ok in Hs; lia)) as [Ha Ht].
  destruct (Z.eq_dec lb rb) as [->|Hne].
  - apply rep_leaf with 0; assumption.
  - assert (Hlt : lb < rb) by lia.
    pose proof (midpoint_bounds lb rb Hlt) as Hm.
    apply rep_node with 0; try assumption.
    + rewrite sum_range_zero. exact Ha.
    + apply (IH (2 * idx)); [lia|lia|apply slot_left; assumption].
    + apply (IH (2 * idx + 1)); [lia|lia|apply slot_right; assumption].
Qed.

Lemma valid_range_int_range L R : valid_range L R -> int_range L R.
Proof.
  unfold valid_range, int_range, is_int, int_min, int_max. lia.
Qed.

Lemma valid_range_fits L R : valid_range L R -> fits stack_depth L R.
Proof.
  unfold valid_range, fits, stack_depth, is_int, int_min, int_max.
  intros (H1 & H2 & H3 & H4).
  change (2 ^ (Z.of_nat 64 - 1)) with 9223372036854775808. lia.
Qed.

Lemma space_needed_exact L R tree tags :
  valid_range L R ->
  _space_needed (MkSegmentTree L R tree tags) = 4 * (R - L + 1).
Proof.
  unfold valid_range, is_int, int_min, int_max. intros H.
  unfold _space_needed, mul32, add32, sub32. cbn [_left_bound _right_bound].
  rewrite (wrap_small (R - L)) by (unfold is_int, int_min, int_max; lia).
  rewrite (wrap_small (R - L + 1)) by (unfold is_int, int_min, int_max; lia).
  apply wrap_small. unfold is_int, int_min, int_max. lia.
Qed.

(** The empty constructor succeeds on a valid range and yields zeroed
    arrays of [4 * (R - L + 1)] slots. *)
Lemma SegmentTree_range_spec L R :
  valid_range L R ->
  exists s, SegmentTree_range L R = Some s /\ Inv s (fun _ => 0) /\
    _left_bound s = L /\ _right_bound s = R /\
    (forall j t, tg s j = Some t -> t = 0).
Proof.
  intros Hv. unfold SegmentTree_range.
  assert (Hn : 0 <= 4 * (R - L + 1)) by (unfold valid_range in Hv; lia).
  rewrite (space_needed_exact L R) by exact Hv.
  unfold new_vector at 1. rewrite decide_True by exact Hn. cbv beta iota zeta.
  rewrite (space_needed_exact L R) by exact Hv.
  unfold new_vector. rewrite decide_True by exact Hn.
  eexists. split; [reflexivity|].
  assert (Hlen : Z.of_nat (length (replicate (Z.to_nat (4 * (R - L + 1))) 0))
                 = 4 * (R - L + 1)) by (rewrite length_replicate; lia).
  split; [|split; [reflexivity|split; [reflexivity|]]].
  - split; cbn [_left_bound _right_bound _tree _tags]; try assumption.
    apply (rep_zero _ _ (R - L + 1)) with (k := S (Z.to_nat (R - L))).
    + intros j Hj. unfold tr, tg. cbn [_tree _tags].
      rewrite vget_replicate by lia. auto.
    + lia.
    + unfold valid_range in Hv. lia.
    + apply slot_root. unfold valid_range in Hv. lia.
  - intros j t. unfold tg, vget. cbn [_tags]. case_decide; [|discriminate].
    intros Hl. apply lookup_replicate in Hl. apply Hl.
Qed.

Lemma _build_spec fuel : forall s idx lb rb g0 vec,
  1 <= idx -> Z.of_nat (length (_tree s)) <= int_max ->
  int_range lb rb -> fits fuel lb rb ->
  rep (tr s) (tg s) idx lb rb g0 ->
  (forall j t, tg s j = Some t -> t = 0) ->
  (forall p, lb <= p <= rb -> exists a, vget vec p = Some a /\ is_int a) ->
  exists s',
    _build fuel idx lb rb vec s = Done tt s' /\
    frame idx s s' /\
    (forall j, tg s' j = tg s j) /\
    rep (tr s') (tg s') idx lb rb (vec_at vec).
Proof.
  induction fuel as [|fuel IH];
    intros s idx lb rb g0 vec Hidx Hlen Hir Hfit H Hz Hvec.
  { exfalso. apply (fits_pos _ _ _ (rep_range _ _ _ _ _ _ H) Hfit). reflexivity. }
  pose proof (rep_range _ _ _ _ _ _ H) as Hle.
  cbn [_build].
  destruct (Z.eqb_spec lb rb) as [->|Hne].
  - destruct (Hvec rb ltac:(lia)) as (a & Ha & Hint). rewrite Ha.
    destruct (rep_tag _ _ _ _ _ _ H) as [t Ht].
    pose proof (rep_root _ _ _ _ _ _ H) as Hroot.
    destruct (set_tree_spec s idx a ltac:(eauto))
      as (s' & Hset & Hnew & Hother & Htags & F).
    exists s'. split; [exact Hset|]. split; [exact F|]. split; [exact Htags|].
    apply rep_leaf with t; [|rewrite Htags; exact Ht].
    rewrite Hnew. unfold vec_at. rewrite Ha. cbn [default].
    rewrite wrap_small by exact Hint. reflexivity.
  - assert (Hlt : lb < rb) by lia.
    destruct H as [idx p g0 t Ha0 Ht0|idx lb rb g0 t _ Ht Ha Hl Hr]; [lia|].
    pose proof (midpoint_bounds lb rb Hlt) as Hm.
    destruct (fits_children _ _ _ Hlt Hfit) as [FitL FitR].
    pose proof (int_range_left _ _ Hir Hlt) as IrL.
    pose proof (int_range_right _ _ Hir Hlt) as IrR.
    rewrite (mid_exact lb rb Hir Hle).
    rewrite (succ_exact (midpoint lb rb))
      by (destruct Hir as (? & ? & ?); unfold is_int in *; lia).
    pose proof (vget_lt _ _ _ (rep_root _ _ _ _ _ _ Hr)) as Hin.
    destruct (double_exact idx Hidx ltac:(lia)) as [E2 E3].
    rewrite E2, E3.
    assert (t = 0) as -> by (apply (Hz idx); exact Ht).
    destruct (IH s (2 * idx) lb (midpoint lb rb) _ vec
                ltac:(lia) Hlen IrL FitL Hl Hz ltac:(intros p Hp; apply Hvec; lia))
      as (s1 & Hrun1 & F1 & Htg1 & Hl1).
    unfold bind at 1. rewrite Hrun1.
    assert (Hlen1 : Z.of_nat (length (_tree s1)) <= int_max)
      by (rewrite (frame_tree_len _ _ _ F1); exact Hlen).
    assert (Hr1 : rep (tr s1) (tg s1) (2 * idx + 1) (midpoint lb rb + 1) rb
                      (fun p => g0 p - 0)).
    { apply (rep_preserved _ _ _ _ _ _ _ F1); [|exact Hr].
      intros j Hj Hj'. apply (desc_siblings idx j Hidx Hj' Hj). }
    destruct (IH s1 (2 * idx + 1) (midpoint lb rb + 1) rb _ vec
                ltac:(lia) Hlen1 IrR FitR Hr1
                ltac:(intros j t' Hj; apply (Hz j); rewrite <- Htg1; exact Hj)
                ltac:(intros p Hp; apply Hvec; lia))
      as (s2 & Hrun2 & F2 & Htg2 & Hr2).
    unfold bind at 1. rewrite Hrun2.
    assert (Hl2 : rep (tr s2) (tg s2) (2 * idx) lb (midpoint lb rb) (vec_at vec)).
    { apply (rep_preserved _ _ _ _ _ _ _ F2); [|exact Hl1].
      intros j Hj Hj'. apply (desc_siblings idx j Hidx Hj Hj'). }
    pose proof (rep_root _ _ _ _ _ _ Hl2) as Ha2.
    pose proof (rep_root _ _ _ _ _ _ Hr2) as Hb2.
    unfold bind, tree_at.
    change (vget (_tree s2)) with (tr s2). rewrite Ha2. cbv beta iota.
    change (vget (_tree s2)) with (tr s2). rewrite Hb2. cbv beta iota.
    rewrite add32_wrap, <- sum_range_split by lia.
    assert (Hsome : is_Some (tr s2 idx)).
    { apply vget_is_Some. apply vget_lt in Ha2. lia. }
    destruct (set_tree_spec s2 idx (wrap (sum_range (vec_at vec) lb rb)) Hsome)
      as (s3 & Hset & Hnew & Hother & Htags & F3).
    exists s3. split; [exact Hset|].
    split; [exact (frame_trans _ _ _ _ (frame_left _ _ _ F1)
                     (frame_trans _ _ _ _ (frame_right _ _ _ F2) F3))|].
    split; [intros j; rewrite Htags, Htg2, Htg1; reflexivity|].
    apply rep_untagged; try assumption.
    + rewrite Htags, Htg2, Htg1. exact Ht.
    + apply (rep_frame _ _ _ _ _ _ _ _ Hl2). intros j Hj.
      split; [|apply Htags]. apply Hother. apply desc_ge in Hj; lia.
    + apply (rep_frame _ _ _ _ _ _ _ _ Hr2). intros j Hj.
      split; [|apply Htags]. apply Hother. apply desc_ge in Hj; lia.
Qed.

Lemma sum_from_vec_at v : forall (pre : list Z),
  sum_from (vec_at (pre ++ v)) (Z.of_nat (length pre)) (length v) = sum_list v.
Proof.
  induction v as [|a v IH]; intros pre; cbn [sum_from length sum_list foldr].
  - reflexivity.
  - replace (Z.of_nat (length pre) + 1) with (Z.of_nat (length (pre ++ [a])))
      by (rewrite length_app; cbn [length]; lia).
    replace (pre ++ a :: v) with ((pre ++ [a]) ++ v)
      by (rewrite <- app_assoc; reflexivity).
    rewrite (IH (pre ++ [a])). f_equal.
    unfold vec_at, vget. rewrite decide_True by lia.
    rewrite Nat2Z.id, <- app_assoc, lookup_app_r by lia.
    rewrite Nat.sub_diag. reflexivity.
Qed.

Lemma sum_range_vec_at v :
  sum_range (vec_at v) 0 (Z.of_nat (length v) - 1) = sum_list v.
Proof.
  unfold sum_range.
  replace (Z.to_nat (Z.of_nat (length v) - 1 - 0 + 1)) with (length v) by lia.
  exact (sum_from_vec_at v []).
Qed.

Lemma valid_vec_range v :
  valid_vec v -> valid_range 0 (Z.of_nat (length v) - 1).
Proof.
  unfold valid_vec, valid_range, is_int, int_min, int_max.
  intros (H1 & H2 & H3). lia.
Qed.

Lemma valid_vec_get v p :
  valid_vec v -> 0 <= p <= Z.of_nat (length v) - 1 ->
  exists a, vget v p = Some a /\ is_int a.
Proof.
  intros (H1 & H2 & H3) Hp.
  destruct (vget_is_Some v p ltac:(lia)) as [a Ha]. exists a. split; [exact Ha|].
  unfold vget in Ha. case_decide; [|discriminate].
  rewrite Forall_lookup in H2. exact (H2 _ _ Ha).
Qed.

(** The bulk constructor succeeds on a valid vector and stores it. *)
Lemma SegmentTree_vec_spec v :
  valid_vec v ->
  exists s, SegmentTree_vec v = Some s /\ Inv s (vec_at v) /\
    _left_bound s = 0 /\ _right_bound s = Z.of_nat (length v) - 1.
Proof.
  intros Hv. pose proof (valid_vec_range v Hv) as Hr.
  unfold SegmentTree_vec.
  rewrite (wrap_small (Z.of_nat (length v) - 1)) by apply Hr.
  destruct (SegmentTree_range_spec _ _ Hr) as (s0 & -> & I0 & HL & HR & Hz).
  destruct I0 as [I1 I2 I3 I4]. rewrite HL, HR in *.
  destruct (_build_spec stack_depth s0 1 0 (Z.of_nat (length v) - 1) _ v
              ltac:(lia) ltac:(unfold valid_range in Hr; lia)
              (valid_range_int_range _ _ Hr) (valid_range_fits _ _ Hr) I4 Hz
              (fun p Hp => valid_vec_get v p Hv Hp))
    as (s1 & Hrun & F & Htg & Hrep).
  rewrite Hrun. exists s1. split; [reflexivity|].
  destruct F as [F1 F2 F3 F4 F5].
  split; [|split; congruence].
  split; rewrite ?F1, ?F2, ?F3, ?F4, ?HL, ?HR; assumption.
Qed.

End Construction.

(** ** The public interface *)

Section Interface.

Lemma Inv_frame s s' g :
  Inv s g -> frame 1 s s' -> rep (tr s') (tg s') 1 (_left_bound s) (_right_bound s) g ->
  Inv s' g.
Proof.
  intros [I1 I2 I3 I4] [F1 F2 F3 F4 F5] H.
  split; rewrite ?F1, ?F2, ?F3, ?F4; assumption.
Qed.

(** [get_sum] on a well-formed object returns the sum of the point
    values on the queried range and keeps the object well formed. *)
Lemma get_sum_spec s g l r :
  Inv s g -> in_bounds s l r ->
  exists s',
    get_sum l r s = Done (wrap (sum_range g l r)) s' /\ Inv s' g /\
    _left_bound s' = _left_bound s /\ _right_bound s' = _right_bound s.
Proof.
  intros I (B1 & B2 & B3). pose proof I as [I1 I2 I3 I4].
  destruct (_get_sum_spec stack_depth s 1 l r (_left_bound s) (_right_bound s) g
              ltac:(lia) ltac:(unfold valid_range in I1; lia)
              (valid_range_int_range _ _ I1) (valid_range_fits _ _ I1)
              ltac:(lia) ltac:(lia) I4) as (s' & Hrun & F & Hrep).
  rewrite Z.max_l, Z.min_l in Hrun by lia.
  exists s'. split; [exact Hrun|]. split; [exact (Inv_frame _ _ _ I F Hrep)|].
  split; [apply F|apply F].
Qed.

(** [add] on a well-formed object adds [x] to the point values of the
    range and keeps the object well formed. *)
Lemma add_spec s g x l r :
  Inv s g -> in_bounds s l r ->
  exists s',
    add x l r s = Done tt s' /\ Inv s' (range_add x l r g) /\
    _left_bound s' = _left_bound s /\ _right_bound s' = _right_bound s.
Proof.
  intros I (B1 & B2 & B3). pose proof I as [I1 I2 I3 I4].
  destruct (_add_spec stack_depth s x 1 l r (_left_bound s) (_right_bound s) g
              ltac:(lia) ltac:(unfold valid_range in I1; lia)
              (valid_range_int_range _ _ I1) (valid_range_fits _ _ I1)
              ltac:(lia) ltac:(lia) I4) as (s' & Hrun & F & Hrep).
  exists s'. split; [exact Hrun|].
  split; [|split; [apply F|apply F]].
  destruct I as [J1 J2 J3 J4], F as [F1 F2 F3 F4 F5].
  split; rewrite ?F1, ?F2, ?F3, ?F4; assumption.
Qed.

(** Every reachable object is well formed and stores the true point
    values. *)
Lemma reachable_Inv s f : reachable s f -> Inv s f.
Proof.
  intros H. induction H as [L R s Hv Hc|v s Hv Hc|s f x l r s' H IH Hx Hb Hrun
                           |s f l r v s' H IH Hb Hrun].
  - destruct (SegmentTree_range_spec L R Hv) as (s0 & E & I & _).
    congruence.
  - destruct (SegmentTree_vec_spec v Hv) as (s0 & E & I & _).
    congruence.
  - destruct (add_spec s f x l r IH Hb) as (s0 & E & I & _). congruence.
  - destruct (get_sum_spec s f l r IH Hb) as (s0 & E & I & _). congruence.
Qed.

(** Point values that agree as [int]s on the range are stored alike. *)
Lemma Inv_eqm s g g' :
  Inv s g ->
  (forall p, _left_bound s <= p <= _right_bound s -> eqm (g p) (g' p)) ->
  Inv s g'.
Proof.
  intros [I1 I2 I3 I4] H. split; try assumption.
  apply (rep_eqm _ _ _ _ _ _ _ I4 H).
Qed.

Lemma valid_op_bounds s s' o :
  _left_bound s' = _left_bound s -> _right_bound s' = _right_bound s ->
  valid_op s o -> valid_op s' o.
Proof.
  intros E1 E2. destruct o; unfold valid_op, in_bounds; rewrite E1, E2; auto.
Qed.

(** A client's calls all succeed, and its queries return what the point
    values dictate. *)
Lemma run_spec ops : forall s g,
  Inv s g -> Forall (valid_op s) ops ->
  exists s', run ops s = Done (answers g ops) s'.
Proof.
  induction ops as [|o ops IH]; intros s g I Hops.
  - exists s. reflexivity.
  - inversion Hops as [|o' ops' Ho Hrest]; subst.
    destruct o as [x l r|l r]; cbn [run answers].
    + destruct Ho as [Hx Hb].
      destruct (add_spec s g x l r I Hb) as (s1 & E & I1 & B1 & B2).
      destruct (IH s1 _ I1) as (s2 & E2).
      { eapply Forall_impl; [exact Hrest|].
        intros o Ho. apply (valid_op_bounds s s1); assumption. }
      exists s2. unfold bind. rewrite E. exact E2.
    + destruct (get_sum_spec s g l r I Ho) as (s1 & E & I1 & B1 & B2).
      destruct (IH s1 _ I1) as (s2 & E2).
      { eapply Forall_impl; [exact Hrest|].
        intros o Ho'. apply (valid_op_bounds s s1); assumption. }
      exists s2. unfold bind. rewrite E, E2. reflexivity.
Qed.

(** Two well-formed objects over the same range that store the same
    point values cannot be told apart by a client. *)
Lemma same_answers s1 s2 g ops :
  Inv s1 g -> Inv s2 g ->
  _left_bound s2 = _left_bound s1 -> _right_bound s2 = _right_bound s1 ->
  Forall (valid_op s1) ops ->
  exists vs s1' s2',
    run ops s1 = Done vs s1' /\ run ops s2 = Done vs s2'.
Proof.
  intros I1 I2 E1 E2 Hops.
  destruct (run_spec ops s1 g I1 Hops) as (s1' & R1).
  destruct (run_spec ops s2 g I2) as (s2' & R2).
  { eapply Forall_impl; [exact Hops|].
    intros o Ho. apply (valid_op_bounds s1 s2); assumption. }
  eauto.
Qed.

(** What a subtree represents, seen from the root: the true values less
    the tags pending on the way down. *)
Lemma rep_pending tr tg L R g idx lb rb T :
  rep tr tg 1 L R g -> pending tg L R idx lb rb T ->
  rep tr tg idx lb rb (fun p => g p - T).
Proof.
  intros Hroot H.
  induction H as [|idx lb rb T t H IH Hlt Ht|idx lb rb T t H IH Hlt Ht].
  - apply (rep_eqm _ _ _ _ _ _ _ Hroot). intros p _. cbv beta.
    rewrite Z.sub_0_r. reflexivity.
  - remember (fun p => g p - T) as g' eqn:Eg in IH.
    destruct IH as [idx p g' t' Ha' Ht'|idx lb rb g' t' _ Ht' Ha' Hl Hr]; [lia|].
    subst g'. assert (t' = t) as -> by congruence.
    apply (rep_eqm _ _ _ _ _ _ _ Hl). intros p _. cbv beta.
    replace (g p - (T + t)) with (g p - T - t) by ring. reflexivity.
  - remember (fun p => g p - T) as g' eqn:Eg in IH.
    destruct IH as [idx p g' t' Ha' Ht'|idx lb rb g' t' _ Ht' Ha' Hl Hr]; [lia|].
    subst g'. assert (t' = t) as -> by congruence.
    apply (rep_eqm _ _ _ _ _ _ _ Hr). intros p _. cbv beta.
    replace (g p - (T + t)) with (g p - T - t) by ring. reflexivity.
Qed.

Lemma set_tags_spec s idx x :
  is_Some (tg s idx) ->
  exists s',
    set_tags idx x s = Done tt s' /\
    tg s' idx = Some x /\
    (forall j, j <> idx -> tg s' j = tg s j) /\
    (forall j, tr s' j = tr s j) /\
    frame idx s s'.
Proof.
  intros [a Ha]. pose proof (vget_lt _ _ _ Ha) as Hi.
  destruct s as [L R tree tags]. unfold tr, tg, set_tags in *.
  cbn [_tree _tags _left_bound _right_bound] in *. vsimp.
  eexists. split; [reflexivity|]. cbn [_tree _tags]. vsimp.
  split; [reflexivity|]. split; [intros j Hj; vsimp; reflexivity|].
  split; [reflexivity|].
  split; cbn [_tree _tags _left_bound _right_bound]; vsimp; try reflexivity.
  intros j Hj. unfold tr, tg. cbn [_tree _tags].
  rewrite vget_insert_ne; [auto|lia|]. intros ->. apply Hj, desc_self.
Qed.

Lemma node_inv i0 l0 r0 idx lb rb :
  node i0 l0 r0 idx lb rb ->
  (idx = i0 /\ lb = l0 /\ rb = r0)
  \/ (exists j l r, idx = 2 * j /\ lb = l /\ rb = midpoint l r /\ l < r
                    /\ node i0 l0 r0 j l r)
  \/ (exists j l r, idx = 2 * j + 1 /\ lb = midpoint l r + 1 /\ rb = r /\ l < r
                    /\ node i0 l0 r0 j l r).
Proof.
  intros H. destruct H as [|j l r H Hlt|j l r H Hlt].
  - left. auto.
  - right. left. exists j, l, r. auto.
  - right. right. exists j, l, r. auto.
Qed.

Lemma node_ge i0 l0 r0 idx lb rb :
  1 <= i0 -> node i0 l0 r0 idx lb rb -> i0 <= idx.
Proof. intros Hi H. induction H; lia. Qed.

Lemma node_trans i0 l0 r0 i1 l1 r1 idx lb rb :
  node i0 l0 r0 i1 l1 r1 -> node i1 l1 r1 idx lb rb -> node i0 l0 r0 idx lb rb.
Proof.
  intros H1 H2. induction H2 as [|j l r H IH Hlt|j l r H IH Hlt].
  - exact H1.
  - apply node_left; assumption.
  - apply node_right; assumption.
Qed.

(** The index of a node determines the range it covers. *)
Lemma node_functional L R idx lb rb lb' rb' :
  node 1 L R idx lb rb -> node 1 L R idx lb' rb' -> lb = lb' /\ rb = rb'.
Proof.
  intros H. revert lb' rb'.
  induction H as [|j l r H IH Hlt|j l r H IH Hlt]; intros lb' rb' H'.
  - destruct (node_inv _ _ _ _ _ _ H')
      as [(E1 & E2 & E3)|[(j' & l' & r' & E & E2 & E3 & Hlt' & Hn)
                         |(j' & l' & r' & E & E2 & E3 & Hlt' & Hn)]].
    + auto.
    + lia.
    + apply node_ge in Hn; lia.
  - destruct (node_inv _ _ _ _ _ _ H')
      as [(E1 & E2 & E3)|[(j' & l' & r' & E & E2 & E3 & Hlt' & Hn)
                         |(j' & l' & r' & E & E2 & E3 & Hlt' & Hn)]].
    + apply node_ge in H; lia.
    + assert (j' = j) as -> by lia.
      destruct (IH _ _ Hn) as [-> ->]. subst. auto.
    + lia.
  - destruct (node_inv _ _ _ _ _ _ H')
      as [(E1 & E2 & E3)|[(j' & l' & r' & E & E2 & E3 & Hlt' & Hn)
                         |(j' & l' & r' & E & E2 & E3 & Hlt' & Hn)]].
    + apply node_ge in H; lia.
    + lia.
    + assert (j' = j) as -> by lia.
      destruct (IH _ _ Hn) as [-> ->]. subst. auto.
Qed.

(** Every node of the tree is the root of a represented subtree. *)
Lemma rep_at_node tr tg i0 l0 r0 g idx lb rb :
  rep tr tg i0 l0 r0 g -> node i0 l0 r0 idx lb rb ->
  exists g', rep tr tg idx lb rb g'.
Proof.
  intros Hroot H. induction H as [|j l r H IH Hlt|j l r H IH Hlt].
  - eauto.
  - destruct IH as [g' IH].
    destruct IH as [idx p g' t' Ha' Ht'|idx lb rb g' t' _ Ht' Ha' Hl Hr]; [lia|].
    eauto.
  - destruct IH as [g' IH].
    destruct IH as [idx p g' t' Ha' Ht'|idx lb rb g' t' _ Ht' Ha' Hl Hr]; [lia|].
    eauto.
Qed.

(** Tags of leaves play no part in what a tree represents. *)
Lemma rep_retag tr tg tg' i0 l0 r0 g :
  rep tr tg i0 l0 r0 g ->
  (forall j lb rb, node i0 l0 r0 j lb rb -> lb < rb -> tg' j = tg j) ->
  (forall j, is_Some (tg j) -> is_Some (tg' j)) ->
  rep tr tg' i0 l0 r0 g.
Proof.
  intros H.
  induction H as [idx p g t Ha Ht|idx lb rb g t Hlt Ht Ha Hl IHl Hr IHr];
    intros Hinner Hsome.
  - destruct (Hsome idx ltac:(eauto)) as [t' Ht'].
    apply rep_leaf with t'; assumption.
  - apply rep_node with t; try assumption.
    + rewrite (Hinner idx lb rb (node_root _ _ _) Hlt). exact Ht.
    + apply IHl; [|exact Hsome]. intros j l r Hn Hlt'.
      apply (Hinner j l r); [|exact Hlt'].
      exact (node_trans _ _ _ _ _ _ _ _ _
               (node_left _ _ _ _ _ _ (node_root _ _ _) Hlt) Hn).
    + apply IHr; [|exact Hsome]. intros j l r Hn Hlt'.
      apply (Hinner j l r); [|exact Hlt'].
      exact (node_trans _ _ _ _ _ _ _ _ _
               (node_right _ _ _ _ _ _ (node_root _ _ _) Hlt) Hn).
Qed.

Lemma pending_node tg L R idx lb rb T :
  pending tg L R idx lb rb T -> node 1 L R idx lb rb.
Proof.
  intros H. induction H.
  - apply node_root.
  - apply node_left; assumption.
  - apply node_right; assumption.
Qed.

End Interface.

(** ** Properties of the specification *)

Section Instances.

Lemma demo_tree_reachable : reachable demo_tree (fun _ => 0).
Proof.
  apply (reach_range 1 50).
  - unfold valid_range, is_int, int_min, int_max. lia.
  - reflexivity.
Qed.

Lemma tagged_root_reachable :
  reachable tagged_root (range_add 1 0 1 (fun _ => 0)).
Proof.
  apply (reach_add (MkSegmentTree 0 1 (replicate 8 0) (replicate 8 0))).
  - apply (reach_range 0 1).
    + unfold valid_range, is_int, int_min, int_max. lia.
    + reflexivity.
  - unfold is_int, int_min, int_max. lia.
  - unfold in_bounds. cbn. lia.
  - reflexivity.
Qed.

Lemma tagged_leaf_reachable :
  reachable tagged_leaf (range_add 1 0 0 (fun _ => 0)).
Proof.
  apply (reach_add (MkSegmentTree 0 1 (replicate 8 0) (replicate 8 0))).
  - apply (reach_range 0 1).
    + unfold valid_range, is_int, int_min, int_max. lia.
    + reflexivity.
  - unfold is_int, int_min, int_max. lia.
  - unfold in_bounds. cbn. lia.
  - reflexivity.
Qed.

Lemma range_add_comm x1 a b x2 c d g p :
  range_add x2 c d (range_add x1 a b g) p
  = range_add x1 a b (range_add x2 c d g) p.
Proof.
  unfold range_add.
  destruct ((a <=? p) && (p <=? b)), ((c <=? p) && (p <=? d)); lia.
Qed.

Lemma range_add_cancel x i g p :
  eqm (range_add (neg32 x) i i (range_add x i i g) p) (g p).
Proof.
  unfold range_add, neg32.
  destruct ((i <=? p) && (p <=? i)); [|reflexivity].
  rewrite eqm_wrap. replace (g p + x + - x) with (g p) by ring. reflexivity.
Qed.

End Instances.

Section Oversized.

Lemma length_unallocatable_vec : Z.of_nat (length unallocatable_vec) = 2 ^ 29.
Proof.
  unfold unallocatable_vec. rewrite length_replicate.
  apply Z2Nat.id. apply Z.pow_nonneg. lia.
Qed.

Lemma length_truncated_vec : Z.of_nat (length truncated_vec) = 2 ^ 32 + 1.
Proof.
  unfold truncated_vec.
  change (length (0 :: 1 :: replicate (Z.to_nat (2 ^ 32 - 1)) 0))
    with (S (S (length (replicate (Z.to_nat (2 ^ 32 - 1)) 0)))).
  rewrite length_replicate, !Nat2Z.inj_succ, Z2Nat.id.
  - reflexivity.
  - discriminate.
Qed.

Lemma sum_list_zeros n : sum_list (replicate n 0) = 0.
Proof. induction n as [|n IH]; [reflexivity|]. cbn. exact IH. Qed.

Lemma sum_list_one_among_zeros n : sum_list (0 :: 1 :: replicate n 0) = 1.
Proof.
  change (0 + (1 + sum_list (replicate n 0)) = 1).
  rewrite sum_list_zeros. reflexivity.
Qed.

Lemma is_int_one_among_zeros n : Forall is_int (0 :: 1 :: replicate n 0).
Proof.
  repeat constructor; try (unfold is_int, int_min, int_max; lia).
  apply Forall_replicate. unfold is_int, int_min, int_max. lia.
Qed.

(** From [2^29] elements on the allocation size is negative as an
    [int], the allocation throws and nothing is built. *)
Lemma SegmentTree_vec_unallocatable v :
  Z.of_nat (length v) = 2 ^ 29 -> SegmentTree_vec v = None.
Proof.
  intros H. unfold SegmentTree_vec. rewrite H.
  assert (E : SegmentTree_range 0 (wrap (2 ^ 29 - 1)) = None) by reflexivity.
  rewrite E. reflexivity.
Qed.

(** At [2^32 + 1] elements [size() - 1] is 0 as an [int]: the tree is
    built over the single point 0 and holds [v[0]] only. *)
Lemma SegmentTree_vec_truncated a b tail :
  is_int a ->
  Z.of_nat (length tail) = 2 ^ 32 - 1 ->
  SegmentTree_vec (a :: b :: tail) = Some (MkSegmentTree 0 0 [0; a; 0; 0] [0; 0; 0; 0]).
Proof.
  intros Ha H. unfold SegmentTree_vec.
  change (length (a :: b :: tail)) with (S (S (length tail))).
  rewrite !Nat2Z.inj_succ, H.
  assert (E : wrap (Z.succ (Z.succ (2 ^ 32 - 1)) - 1) = 0) by reflexivity.
  rewrite E.
  assert (E0 : SegmentTree_range 0 0
               = Some (MkSegmentTree 0 0 [0; 0; 0; 0] [0; 0; 0; 0])) by reflexivity.
  rewrite E0. reflexivity.
Qed.

End Oversized.

(** C1. On every reachable tree, for every [int] [x] and valid range
    [[lo, hi]]: after [add(x, lo, hi)], [get_sum(p, p)] returns its value
    from before the update plus [x] (an [int] addition) at every point
    [p] of [[lo, hi]], and its value from before the update at every
    other valid point.  The earlier value may have been queried on the
    tree first (the calls are then made in sequence) or not. *)
Theorem C1_range_update_consistency s f x lo hi p :
  reachable s f -> is_int x -> in_bounds s lo hi -> in_bounds s p p ->
  exists v0 s0,
    get_sum p p s = Done v0 s0 /\
    (exists s1 v1 s2,
        add x lo hi s0 = Done tt s1 /\
        get_sum p p s1 = Done v1 s2 /\
        v1 = if (lo <=? p) && (p <=? hi) then add32 v0 x else v0) /\
    (exists s1 v1 s2,
        add x lo hi s = Done tt s1 /\
        get_sum p p s1 = Done v1 s2 /\
        v1 = if (lo <=? p) && (p <=? hi) then add32 v0 x else v0).
Proof.
  intros Hr Hx Hb Hp. pose proof (reachable_Inv _ _ Hr) as I.
  assert (Hval : wrap (sum_range (range_add x lo hi f) p p)
                 = if (lo <=? p) && (p <=? hi)
                   then add32 (wrap (sum_range f p p)) x
                   else wrap (sum_range f p p)).
  { rewrite !sum_range_one. unfold range_add.
    destruct ((lo <=? p) && (p <=? hi)); [|reflexivity].
    unfold add32. change (eqm (f p + x) (wrap (f p) + x)).
    rewrite eqm_wrap. reflexivity. }
  destruct (get_sum_spec s f p p I Hp) as (s0 & E0 & I0 & L0 & R0).
  exists (wrap (sum_range f p p)), s0. split; [exact E0|]. split.
  - destruct (add_spec s0 f x lo hi I0) as (s1 & E1 & I1 & L1 & R1).
    { unfold in_bounds in *. rewrite L0, R0. exact Hb. }
    destruct (get_sum_spec s1 _ p p I1) as (s2 & E2 & _).
    { unfold in_bounds in *. rewrite L1, R1, L0, R0. exact Hp. }
    exists s1, (wrap (sum_range (range_add x lo hi f) p p)), s2.
    split; [exact E1|]. split; [exact E2|exact Hval].
  - destruct (add_spec s f x lo hi I Hb) as (s1 & E1 & I1 & L1 & R1).
    destruct (get_sum_spec s1 _ p p I1) as (s2 & E2 & _).
    { unfold in_bounds in *. rewrite L1, R1. exact Hp. }
    exists s1, (wrap (sum_range (range_add x lo hi f) p p)), s2.
    split; [exact E1|]. split; [exact E2|exact Hval].
Qed.

(** C1 on the driver's tree: [add(5, 10, 23)] seen from point 12. *)
Lemma C1_witness :
  exists v0 s0,
    get_sum 12 12 demo_tree = Done v0 s0 /\
    (exists s1 v1 s2,
        add 5 10 23 s0 = Done tt s1 /\
        get_sum 12 12 s1 = Done v1 s2 /\
        v1 = if (10 <=? 12) && (12 <=? 23) then add32 v0 5 else v0) /\
    (exists s1 v1 s2,
        add 5 10 23 demo_tree = Done tt s1 /\
        get_sum 12 12 s1 = Done v1 s2 /\
        v1 = if (10 <=? 12) && (12 <=? 23) then add32 v0 5 else v0).
Proof.
  apply (C1_range_update_consistency demo_tree (fun _ => 0) 5 10 23 12).
  - exact demo_tree_reachable.
  - unfold is_int, int_min, int_max. lia.
  - unfold in_bounds. simpl. lia.
  - unfold in_bounds. simpl. lia.
Defined.

(** C2, as stated, fails on vectors too long for the [int] sizes of the
    class.  For [2^29] elements the allocation size [4 * len] is negative
    as an [int], the allocation throws and no tree is built.  For
    [2^32 + 1] elements [size() - 1] is 0 as an [int]: the constructor
    builds a tree over the single point 0, and [get_sum(0, len(v)-1)]
    returns [v[0] = 0] while the elements sum to 1. *)
Lemma C2_counterexample :
  Z.of_nat (length unallocatable_vec) = 2 ^ 29 /\
  Forall is_int unallocatable_vec /\
  SegmentTree_vec unallocatable_vec = None /\
  Z.of_nat (length truncated_vec) = 2 ^ 32 + 1 /\
  Forall is_int truncated_vec /\
  sum_list truncated_vec = 1 /\
  SegmentTree_vec truncated_vec = Some truncated_tree /\
  (exists s', get_sum 0 (Z.of_nat (length truncated_vec) - 1) truncated_tree
              = Done 0 s') /\
  (exists s', get_sum 0 (wrap (Z.of_nat (length truncated_vec) - 1)) truncated_tree
              = Done 0 s').
Proof.
  split; [exact length_unallocatable_vec|].
  split; [apply Forall_replicate; unfold is_int, int_min, int_max; lia|].
  split; [exact (SegmentTree_vec_unallocatable _ length_unallocatable_vec)|].
  split; [exact length_truncated_vec|].
  split; [exact (is_int_one_among_zeros _)|].
  split; [exact (sum_list_one_among_zeros _)|].
  split.
  { apply (SegmentTree_vec_truncated 0 1).
    - unfold is_int, int_min, int_max. lia.
    - rewrite length_replicate. apply Z2Nat.id. discriminate. }
  rewrite length_truncated_vec.
  split; eexists; vm_compute; reflexivity.
Qed.

(** C2, amended.  For every non-empty vector [v] of [int]s with
    [4 * len(v) <= INT_MAX] (the allocation size is an [int]), the tree
    built by [SegmentTree(v)] answers [get_sum(0, len(v)-1)] with the
    sum of all elements of [v], as an [int]; it is the exact sum
    whenever that is an [int]. *)
Theorem C2_build_total_sum v :
  valid_vec v ->
  exists s total s',
    SegmentTree_vec v = Some s /\
    get_sum 0 (Z.of_nat (length v) - 1) s = Done total s' /\
    total = wrap (sum_list v) /\
    (is_int (sum_list v) -> total = sum_list v).
Proof.
  intros Hv. destruct (SegmentTree_vec_spec v Hv) as (s & E & I & HL & HR).
  destruct (get_sum_spec s _ 0 (Z.of_nat (length v) - 1) I) as (s' & Eq & _).
  { unfold in_bounds. rewrite HL, HR. destruct Hv as (H1 & _). lia. }
  rewrite sum_range_vec_at in Eq.
  exists s, (wrap (sum_list v)), s'.
  split; [exact E|]. split; [exact Eq|]. split; [reflexivity|].
  apply wrap_small.
Qed.

(** C2 (amended) on the vector [3, 1, 4, 1, 5]. *)
Lemma C2_witness :
  exists s total s',
    SegmentTree_vec [3; 1; 4; 1; 5] = Some s /\
    get_sum 0 (Z.of_nat (length [3; 1; 4; 1; 5]) - 1) s = Done total s' /\
    total = wrap (sum_list [3; 1; 4; 1; 5]) /\
    (is_int (sum_list [3; 1; 4; 1; 5]) -> total = sum_list [3; 1; 4; 1; 5]).
Proof.
  apply (C2_build_total_sum [3; 1; 4; 1; 5]).
  unfold valid_vec. split; [simpl; lia|]. split.
  - repeat constructor; unfold is_int, int_min, int_max; lia.
  - unfold int_max. simpl. lia.
Defined.

(** C3, as stated, fails: a node below a tagged ancestor keeps a stale
    aggregate.  After [add(1, 0, 1)] on the tree over [[0, 1]] the update
    is held by the root's tag; the node of point 0 (index 2) still stores
    0 while the true value of point 0 is 1. *)
Lemma C3_counterexample :
  reachable tagged_root (range_add 1 0 1 (fun _ => 0)) /\
  node 1 0 1 2 0 0 /\
  tr tagged_root 2 = Some 0 /\
  wrap (sum_range (range_add 1 0 1 (fun _ => 0)) 0 0) = 1 /\
  ~ aggregates_exact tagged_root (range_add 1 0 1 (fun _ => 0)).
Proof.
  assert (Hn : node 1 0 1 2 0 0).
  { exact (node_left 1 0 1 1 0 1 (node_root 1 0 1) ltac:(lia)). }
  split; [exact tagged_root_reachable|]. split; [exact Hn|].
  split; [reflexivity|]. split; [reflexivity|].
  intros H. specialize (H 2 0 0 Hn). discriminate H.
Qed.

(** C3, amended.  In every reachable tree, the aggregate of every node is
    the true sum over the node's range less what the tags of its proper
    ancestors still owe it: the node's size times the sum [T] of those
    tags (all in [int] arithmetic).  No update is lost: each is in the
    aggregate or in a tag above it, and the aggregate is the true sum at
    the root and wherever [T] is zero. *)
Theorem C3_aggregate_invariant s f idx lb rb T :
  reachable s f ->
  pending (tg s) (_left_bound s) (_right_bound s) idx lb rb T ->
  tr s idx = Some (wrap (sum_range f lb rb - T * (rb - lb + 1))).
Proof.
  intros Hr Hp. pose proof (reachable_Inv _ _ Hr) as [I1 I2 I3 I4].
  pose proof (rep_pending _ _ _ _ _ _ _ _ _ I4 Hp) as H.
  pose proof (rep_range _ _ _ _ _ _ H) as Hle.
  pose proof (rep_root _ _ _ _ _ _ H) as Ha.
  assert (E : sum_range (fun p => f p - T) lb rb
              = sum_range f lb rb - T * (rb - lb + 1)).
  { rewrite (sum_range_ext (fun p => f p - T) (fun p => f p + - T))
      by (intros p _; ring).
    rewrite sum_range_plus by lia. ring. }
  rewrite E in Ha. exact Ha.
Qed.

(** C3 (amended) at the stale node of [tagged_root]: index 2, below the
    root's tag 1. *)
Lemma C3_witness :
  tr tagged_root 2
    = Some (wrap (sum_range (range_add 1 0 1 (fun _ => 0)) 0 0 - 1 * (0 - 0 + 1))).
Proof.
  apply (C3_aggregate_invariant tagged_root (range_add 1 0 1 (fun _ => 0)) 2 0 0 1).
  - exact tagged_root_reachable.
  - exact (pending_left (tg tagged_root) 0 1 1 0 1 0 1
             (pending_root (tg tagged_root) 0 1) ltac:(lia) eq_refl).
Defined.

(** C4, as stated, fails: the covered branch of [_add] adds the delta to
    the tag of the node it stops at, leaf or not.  After [add(1, 0, 0)] on
    the tree over [[0, 1]], the leaf of point 0 (index 2) has tag 1. *)
Lemma C4_counterexample :
  reachable tagged_leaf (range_add 1 0 0 (fun _ => 0)) /\
  node 1 0 1 2 0 0 /\
  tg tagged_leaf 2 = Some 1 /\
  ~ leaf_tags_zero tagged_leaf.
Proof.
  assert (Hn : node 1 0 1 2 0 0).
  { exact (node_left 1 0 1 1 0 1 (node_root 1 0 1) ltac:(lia)). }
  split; [exact tagged_leaf_reachable|]. split; [exact Hn|].
  split; [reflexivity|].
  intros H. specialize (H 2 0 Hn). discriminate H.
Qed.

(** C4, amended.  A leaf may carry a non-zero tag, but the tag of a leaf
    carries no meaning: in every reachable tree, overwriting the tag of
    any leaf with any value [t] changes the result of no later call. *)
Theorem C4_leaf_tag_ignored s f idx p t ops :
  reachable s f ->
  node 1 (_left_bound s) (_right_bound s) idx p p ->
  Forall (valid_op s) ops ->
  exists s_t vs s1 s2,
    set_tags idx t s = Done tt s_t /\
    run ops s = Done vs s1 /\
    run ops s_t = Done vs s2.
Proof.
  intros Hr Hn Hops. pose proof (reachable_Inv _ _ Hr) as I.
  pose proof I as [I1 I2 I3 I4].
  destruct (rep_at_node _ _ _ _ _ _ _ _ _ I4 Hn) as [g' Hleaf].
  destruct (set_tags_spec s idx t (rep_tag _ _ _ _ _ _ Hleaf))
    as (s_t & Hset & Hnew & Hother & Htree & F).
  assert (It : Inv s_t f).
  { destruct F as [F1 F2 F3 F4 F5].
    split; rewrite ?F1, ?F2, ?F3, ?F4; try assumption.
    apply (rep_frame (tr s) (tg s_t)); [|intros j _; split; [apply Htree|reflexivity]].
    apply (rep_retag _ _ _ _ _ _ _ I4).
    - intros j lb rb Hj Hlt. apply Hother. intros ->.
      destruct (node_functional _ _ _ _ _ _ _ Hj Hn). lia.
    - intros j Hj. destruct (Z.eq_dec j idx) as [->|Hne].
      + rewrite Hnew. eauto.
      + rewrite (Hother j Hne). exact Hj. }
  destruct (same_answers s s_t f ops I It (frame_lb _ _ _ F) (frame_rb _ _ _ F) Hops)
    as (vs & s1 & s2 & R1 & R2).
  exists s_t, vs, s1, s2. auto.
Qed.

(** C4 (amended) on [tagged_leaf]: the tag of the leaf at index 2 is
    overwritten with 7. *)
Lemma C4_witness :
  exists s_t vs s1 s2,
    set_tags 2 7 tagged_leaf = Done tt s_t /\
    run [GetSum 0 0; Add 3 0 1; GetSum 0 1] tagged_leaf = Done vs s1 /\
    run [GetSum 0 0; Add 3 0 1; GetSum 0 1] s_t = Done vs s2.
Proof.
  apply (C4_leaf_tag_ignored tagged_leaf (range_add 1 0 0 (fun _ => 0)) 2 0 7).
  - exact tagged_leaf_reachable.
  - exact (node_left 1 0 1 1 0 1 (node_root 1 0 1) ltac:(lia)).
  - repeat constructor; unfold is_int, int_min, int_max, in_bounds; simpl; lia.
Defined.

(** C5. On every reachable tree and for valid [a <= b < c], the three
    calls [get_sum(a, c)], [get_sum(a, b)], [get_sum(b+1, c)], made in
    sequence on the same tree, return [v], [v1], [v2] with
    [v = v1 + v2] (an [int] addition). *)
Theorem C5_additivity s f a b c :
  reachable s f ->
  _left_bound s <= a -> a <= b -> b < c -> c <= _right_bound s ->
  exists v s1 v1 s2 v2 s3,
    get_sum a c s = Done v s1 /\
    get_sum a b s1 = Done v1 s2 /\
    get_sum (b + 1) c s2 = Done v2 s3 /\
    v = add32 v1 v2.
Proof.
  intros Hr H1 H2 H3 H4. pose proof (reachable_Inv _ _ Hr) as I.
  destruct (get_sum_spec s f a c I) as (s1 & E1 & I1 & L1 & R1).
  { unfold in_bounds. lia. }
  destruct (get_sum_spec s1 f a b I1) as (s2 & E2 & I2 & L2 & R2).
  { unfold in_bounds. lia. }
  destruct (get_sum_spec s2 f (b + 1) c I2) as (s3 & E3 & I3 & L3 & R3).
  { unfold in_bounds. lia. }
  do 6 eexists. split; [exact E1|]. split; [exact E2|]. split; [exact E3|].
  rewrite add32_wrap. f_equal. apply sum_range_split. lia.
Qed.

(** C5 on the driver's tree with [a = 2], [b = 9], [c = 15]. *)
Lemma C5_witness :
  exists v s1 v1 s2 v2 s3,
    get_sum 2 15 demo_tree = Done v s1 /\
    get_sum 2 9 s1 = Done v1 s2 /\
    get_sum (9 + 1) 15 s2 = Done v2 s3 /\
    v = add32 v1 v2.
Proof.
  apply (C5_additivity demo_tree (fun _ => 0) 2 9 15).
  - exact demo_tree_reachable.
  - simpl. lia.
  - lia.
  - lia.
  - simpl. lia.
Defined.

(** C6. On every reachable tree, two updates [add(x1, a, b)] and
    [add(x2, c, d)] on valid, possibly overlapping ranges commute: after
    either order, every later sequence of valid calls returns the same
    results (in particular every later [get_sum]). *)
Theorem C6_updates_commute s f x1 a b x2 c d ops :
  reachable s f -> is_int x1 -> is_int x2 ->
  in_bounds s a b -> in_bounds s c d ->
  Forall (valid_op s) ops ->
  exists s12 s21 vs s12' s21',
    (add x1 a b ;;; add x2 c d) s = Done tt s12 /\
    (add x2 c d ;;; add x1 a b) s = Done tt s21 /\
    run ops s12 = Done vs s12' /\
    run ops s21 = Done vs s21'.
Proof.
  intros Hr Hx1 Hx2 Hab Hcd Hops. pose proof (reachable_Inv _ _ Hr) as I.
  destruct (add_spec s f x1 a b I Hab) as (s1 & E1 & I1 & L1 & R1).
  destruct (add_spec s1 _ x2 c d I1) as (s12 & E12 & I12 & L12 & R12).
  { unfold in_bounds in *. rewrite L1, R1. exact Hcd. }
  destruct (add_spec s f x2 c d I Hcd) as (s2 & E2 & I2 & L2 & R2).
  destruct (add_spec s2 _ x1 a b I2) as (s21 & E21 & I21 & L21 & R21).
  { unfold in_bounds in *. rewrite L2, R2. exact Hab. }
  assert (I21' : Inv s21 (range_add x2 c d (range_add x1 a b f))).
  { apply (Inv_eqm _ _ _ I21). intros p _.
    rewrite range_add_comm. reflexivity. }
  destruct (same_answers s12 s21 _ ops I12 I21') as (vs & s12' & s21' & Ra & Rb).
  { congruence. }
  { congruence. }
  { eapply Forall_impl; [exact Hops|]. intros o Ho.
    apply (valid_op_bounds s s12); congruence. }
  exists s12, s21, vs, s12', s21'.
  unfold bind. rewrite E1, E2. auto.
Qed.

(** C6 on the driver's tree with two overlapping updates. *)
Lemma C6_witness :
  exists s12 s21 vs s12' s21',
    (add 5 10 23 ;;; add (-2) 20 40) demo_tree = Done tt s12 /\
    (add (-2) 20 40 ;;; add 5 10 23) demo_tree = Done tt s21 /\
    run [GetSum 2 15; GetSum 10 26; GetSum 21 21] s12 = Done vs s12' /\
    run [GetSum 2 15; GetSum 10 26; GetSum 21 21] s21 = Done vs s21'.
Proof.
  apply (C6_updates_commute demo_tree (fun _ => 0) 5 10 23 (-2) 20 40).
  - exact demo_tree_reachable.
  - unfold is_int, int_min, int_max. lia.
  - unfold is_int, int_min, int_max. lia.
  - unfold in_bounds. simpl. lia.
  - unfold in_bounds. simpl. lia.
  - repeat constructor; unfold in_bounds; simpl; lia.
Defined.

(** C7. On every reachable tree, for every [int] [x] and valid index
    [i], the calls [add(x, i, i); add(-x, i, i)] leave every later result
    as it would have been without them. *)
Theorem C7_point_update_cancels s f x i ops :
  reachable s f -> is_int x -> in_bounds s i i ->
  Forall (valid_op s) ops ->
  exists s' vs s1 s2,
    (add x i i ;;; add (neg32 x) i i) s = Done tt s' /\
    run ops s' = Done vs s1 /\
    run ops s = Done vs s2.
Proof.
  intros Hr Hx Hi Hops. pose proof (reachable_Inv _ _ Hr) as I.
  destruct (add_spec s f x i i I Hi) as (s1 & E1 & I1 & L1 & R1).
  destruct (add_spec s1 _ (neg32 x) i i I1) as (s' & E2 & I2 & L2 & R2).
  { unfold in_bounds in *. rewrite L1, R1. exact Hi. }
  assert (I' : Inv s' f).
  { apply (Inv_eqm _ _ _ I2). intros p _. apply range_add_cancel. }
  destruct (same_answers s s' f ops I I') as (vs & sa & sb & Ra & Rb).
  { congruence. }
  { congruence. }
  { exact Hops. }
  exists s', vs, sb, sa. unfold bind. rewrite E1. auto.
Qed.

(** C7 on the driver's tree: the driver's [add(1,1,1); add(-1,1,1)]. *)
Lemma C7_witness :
  exists s' vs s1 s2,
    (add 1 1 1 ;;; add (neg32 1) 1 1) demo_tree = Done tt s' /\
    run [GetSum 2 5; GetSum 1 2] s' = Done vs s1 /\
    run [GetSum 2 5; GetSum 1 2] demo_tree = Done vs s2.
Proof.
  apply (C7_point_update_cancels demo_tree (fun _ => 0) 1 1).
  - exact demo_tree_reachable.
  - unfold is_int, int_min, int_max. lia.
  - unfold in_bounds. simpl. lia.
  - repeat constructor; unfold in_bounds; simpl; lia.
Defined.

(** C8, as stated, fails on ranges of [2^29] points or more, for which
    [4 * (R - L + 1)] is not an [int].  For [SegmentTree(0, 1073741823)]
    the size computed by [_space_needed] is 0: both arrays are empty and
    the first access of [get_sum(0, 0)] or [add(1, 0, 0)] is out of
    bounds. *)
Lemma C8_counterexample :
  is_int 0 /\ is_int (2 ^ 30 - 1) /\ 0 <= 2 ^ 30 - 1 /\
  _space_needed overflown_tree = 0 /\
  SegmentTree_range 0 (2 ^ 30 - 1) = Some overflown_tree /\
  in_bounds overflown_tree 0 0 /\
  tags_at 1 overflown_tree = OutOfBounds /\
  get_sum 0 0 overflown_tree = OutOfBounds /\
  add 1 0 0 overflown_tree = OutOfBounds.
Proof.
  unfold is_int, int_min, int_max, in_bounds.
  repeat split; try reflexivity; try (cbn; lia); discriminate.
Qed.

(** C8, amended.  For every range [[L, R]] of [int]s with [L <= R] whose
    allocation size [4 * (R - L + 1)] is an [int]: every node of the tree
    has its index between 1 and [4 * (R - L + 1) - 1]; the constructor
    allocates both arrays with [4 * (R - L + 1)] slots; on every tree
    reachable over that range the arrays keep that size and every valid
    [add] and [get_sum] runs to its end without an access out of bounds;
    and so does the bulk constructor, [_build] included, on a vector of
    [R - L + 1] [int]s. *)
Theorem C8_allocation_suffices L R :
  valid_range L R ->
  (forall idx lb rb,
      node 1 L R idx lb rb -> 1 <= idx <= 4 * (R - L + 1) - 1) /\
  (exists s,
      SegmentTree_range L R = Some s /\
      Z.of_nat (length (_tree s)) = 4 * (R - L + 1) /\
      Z.of_nat (length (_tags s)) = 4 * (R - L + 1)) /\
  (forall s f,
      reachable s f -> _left_bound s = L -> _right_bound s = R ->
      Z.of_nat (length (_tree s)) = 4 * (R - L + 1) /\
      Z.of_nat (length (_tags s)) = 4 * (R - L + 1) /\
      forall l r, in_bounds s l r ->
        (forall x, exists s', add x l r s = Done tt s') /\
        (exists v s', get_sum l r s = Done v s')) /\
  (forall v,
      valid_vec v -> L = 0 -> R = Z.of_nat (length v) - 1 ->
      exists s0 s,
        SegmentTree_range L R = Some s0 /\
        _build stack_depth 1 L R v s0 = Done tt s /\
        SegmentTree_vec v = Some s).
Proof.
  intros Hv. split; [|split; [|split]].
  - intros idx lb rb Hn.
    destruct (node_slot L R idx lb rb ltac:(unfold valid_range in Hv; lia) Hn)
      as ((S1 & S2 & S3) & _). lia.
  - destruct (SegmentTree_range_spec L R Hv) as (s & E & [I1 I2 I3 I4] & HL & HR & _).
    exists s. rewrite HL, HR in *. auto.
  - intros s f Hr HL HR. pose proof (reachable_Inv _ _ Hr) as I.
    pose proof I as [I1 I2 I3 I4]. rewrite HL, HR in *.
    split; [exact I2|]. split; [exact I3|].
    intros l r Hb. split.
    + intros x. destruct (add_spec s f x l r I Hb) as (s' & E & _). eauto.
    + destruct (get_sum_spec s f l r I Hb) as (s' & E & _). eauto.
  - intros v Hvec -> ->.
    destruct (SegmentTree_range_spec _ _ Hv) as (s0 & E0 & [I1 I2 I3 I4] & HL & HR & Hz).
    rewrite HL, HR in *.
    destruct (_build_spec stack_depth s0 1 0 (Z.of_nat (length v) - 1) _ v
                ltac:(lia) ltac:(unfold valid_range in Hv; lia)
                (valid_range_int_range _ _ Hv) (valid_range_fits _ _ Hv) I4 Hz
                (fun p Hp => valid_vec_get v p Hvec Hp))
      as (s1 & Hrun & _).
    exists s0, s1. split; [exact E0|]. split; [exact Hrun|].
    unfold SegmentTree_vec.
    rewrite (wrap_small (Z.of_nat (length v) - 1)) by apply Hv.
    rewrite E0, HL, HR, Hrun. reflexivity.
Qed.

(** C8 (amended) on the range [[0, 4]], that of a vector of five. *)
Lemma C8_witness :
  (forall idx lb rb,
      node 1 0 4 idx lb rb -> 1 <= idx <= 4 * (4 - 0 + 1) - 1) /\
  (exists s,
      SegmentTree_range 0 4 = Some s /\
      Z.of_nat (length (_tree s)) = 4 * (4 - 0 + 1) /\
      Z.of_nat (length (_tags s)) = 4 * (4 - 0 + 1)) /\
  (forall s f,
      reachable s f -> _left_bound s = 0 -> _right_bound s = 4 ->
      Z.of_nat (length (_tree s)) = 4 * (4 - 0 + 1) /\
      Z.of_nat (length (_tags s)) = 4 * (4 - 0 + 1) /\
      forall l r, in_bounds s l r ->
        (forall x, exists s', add x l r s = Done tt s') /\
        (exists v s', get_sum l r s = Done v s')) /\
  (forall v,
      valid_vec v -> 0 = 0 -> 4 = Z.of_nat (length v) - 1 ->
      exists s0 s,
        SegmentTree_range 0 4 = Some s0 /\
        _build stack_depth 1 0 4 v s0 = Done tt s /\
        SegmentTree_vec v = Some s).
Proof.
  apply (C8_allocation_suffices 0 4).
  unfold valid_range, is_int, int_min, int_max. lia.
Defined.

(** C9. [get_sum] is observationally pure: on every reachable tree a
    valid call [get_sum(l, r)] returns the same value when repeated at
    once, and changes the result of no later call. *)
Theorem C9_get_sum_pure s f l r ops :
  reachable s f -> in_bounds s l r ->
  Forall (valid_op s) ops ->
  exists v s' s'' vs s1 s2,
    get_sum l r s = Done v s' /\
    get_sum l r s' = Done v s'' /\
    run ops s' = Done vs s1 /\
    run ops s = Done vs s2.
Proof.
  intros Hr Hb Hops. pose proof (reachable_Inv _ _ Hr) as I.
  destruct (get_sum_spec s f l r I Hb) as (s' & E1 & I1 & L1 & R1).
  destruct (get_sum_spec s' f l r I1) as (s'' & E2 & _).
  { unfold in_bounds in *. rewrite L1, R1. exact Hb. }
  destruct (same_answers s s' f ops I I1 L1 R1 Hops) as (vs & sa & sb & Ra & Rb).
  exists (wrap (sum_range f l r)), s', s'', vs, sb, sa. auto.
Qed.

(** C9 on [tagged_root], where the query has a tag to push down. *)
Lemma C9_witness :
  exists v s' s'' vs s1 s2,
    get_sum 0 0 tagged_root = Done v s' /\
    get_sum 0 0 s' = Done v s'' /\
    run [GetSum 0 1; GetSum 1 1; Add 4 1 1; GetSum 0 1] s' = Done vs s1 /\
    run [GetSum 0 1; GetSum 1 1; Add 4 1 1; GetSum 0 1] tagged_root = Done vs s2.
Proof.
  apply (C9_get_sum_pure tagged_root (range_add 1 0 1 (fun _ => 0)) 0 0).
  - exact tagged_root_reachable.
  - unfold in_bounds. simpl. lia.
  - repeat constructor; unfold is_int, int_min, int_max, in_bounds; simpl; lia.
Defined.

(** C10, as stated, fails on vectors too long for the [int] sizes of the
    class.  For [2^29] elements no tree is built (the allocation size is
    negative as an [int]).  For [2^32 + 1] elements the tree covers the
    single point 0: at the index 1, where [v[1] = 1], [get_sum(1, 1)]
    returns 0, the content of an unused slot. *)
Lemma C10_counterexample :
  Z.of_nat (length unallocatable_vec) = 2 ^ 29 /\
  Forall is_int unallocatable_vec /\
  SegmentTree_vec unallocatable_vec = None /\
  Z.of_nat (length truncated_vec) = 2 ^ 32 + 1 /\
  Forall is_int truncated_vec /\
  0 <= 1 <= Z.of_nat (length truncated_vec) - 1 /\
  vget truncated_vec 1 = Some 1 /\
  SegmentTree_vec truncated_vec = Some truncated_tree /\
  (exists s', get_sum 1 1 truncated_tree = Done 0 s').
Proof.
  split; [exact length_unallocatable_vec|].
  split; [apply Forall_replicate; unfold is_int, int_min, int_max; lia|].
  split; [exact (SegmentTree_vec_unallocatable _ length_unallocatable_vec)|].
  split; [exact length_truncated_vec|].
  split; [exact (is_int_one_among_zeros _)|].
  split; [rewrite length_truncated_vec; lia|].
  split; [reflexivity|].
  split.
  { apply (SegmentTree_vec_truncated 0 1).
    - unfold is_int, int_min, int_max. lia.
    - rewrite length_replicate. apply Z2Nat.id. discriminate. }
  eexists; vm_compute; reflexivity.
Qed.

(** C10, amended.  For every non-empty vector [v] of [int]s with
    [4 * len(v) <= INT_MAX] (the allocation size is an [int]) and every
    index [i] with [0 <= i <= len(v)-1], the tree built by
    [SegmentTree(v)] answers [get_sum(i, i)] with [v[i]]. *)
Theorem C10_build_pointwise v i :
  valid_vec v -> 0 <= i <= Z.of_nat (length v) - 1 ->
  exists s a s',
    SegmentTree_vec v = Some s /\
    vget v i = Some a /\
    get_sum i i s = Done a s'.
Proof.
  intros Hv Hi. destruct (SegmentTree_vec_spec v Hv) as (s & E & I & HL & HR).
  destruct (valid_vec_get v i Hv Hi) as (a & Ha & Hint).
  destruct (get_sum_spec s _ i i I) as (s' & Eq & _).
  { unfold in_bounds. rewrite HL, HR. lia. }
  rewrite sum_range_one in Eq. unfold vec_at in Eq. rewrite Ha in Eq.
  change (default 0 (Some a)) with a in Eq.
  rewrite (wrap_small a Hint) in Eq.
  exists s, a, s'. auto.
Qed.

(** C10 (amended) on the vector [3, 1, 4, 1, 5] at index 2. *)
Lemma C10_witness :
  exists s a s',
    SegmentTree_vec [3; 1; 4; 1; 5] = Some s /\
    vget [3; 1; 4; 1; 5] 2 = Some a /\
    get_sum 2 2 s = Done a s'.
Proof.
  apply (C10_build_pointwise [3; 1; 4; 1; 5] 2).
  - unfold valid_vec. split; [simpl; lia|]. split.
    + repeat constructor; unfold is_int, int_min, int_max; lia.
    + unfold int_max. simpl. lia.
  - simpl. lia.
Defined.

(** ** Further properties *)

(** X1. The driver as it runs, one object threaded through every call:
    [main] returns and prints these eleven values, in order. *)
Theorem main_scenario :
  main = Some [0; 0; 1; 0; 0; 14; 55; 0; 0; 30; 70].
Proof. vm_compute. reflexivity. Qed.

(** X2. On every reachable tree a valid [get_sum(l, r)] returns the sum of
    the true point values over [[l, r]], as an [int], and leaves a
    reachable tree with the same point values. *)
Theorem get_sum_returns_true_sum s f l r :
  reachable s f -> in_bounds s l r ->
  exists s',
    get_sum l r s = Done (wrap (sum_range f l r)) s' /\ reachable s' f.
Proof.
  intros Hr Hb.
  destruct (get_sum_spec s f l r (reachable_Inv _ _ Hr) Hb) as (s' & E & _).
  exists s'. split; [exact E|]. exact (reach_get_sum _ _ _ _ _ _ Hr Hb E).
Qed.

(** X2 on [tagged_root]. *)
Lemma get_sum_returns_true_sum_witness :
  exists s',
    get_sum 0 1 tagged_root
      = Done (wrap (sum_range (range_add 1 0 1 (fun _ => 0)) 0 1)) s' /\
    reachable s' (range_add 1 0 1 (fun _ => 0)).
Proof.
  apply (get_sum_returns_true_sum tagged_root).
  - exact tagged_root_reachable.
  - unfold in_bounds. simpl. lia.
Defined.

(** X3. The depth of the call stack is immaterial: on a reachable tree any
    depth that fits the range gives [_get_sum] and [_add] the result they
    have at [stack_depth]. *)
Theorem depth_immaterial s f fuel x l r :
  reachable s f -> in_bounds s l r ->
  fits fuel (_left_bound s) (_right_bound s) ->
  (exists s1 s2,
     _get_sum fuel 1 l r (_left_bound s) (_right_bound s) s
       = Done (wrap (sum_range f l r)) s1 /\
     get_sum l r s = Done (wrap (sum_range f l r)) s2) /\
  (exists s', _add fuel x 1 l r (_left_bound s) (_right_bound s) s = Done tt s').
Proof.
  intros Hr (B1 & B2 & B3) Hfit.
  pose proof (reachable_Inv _ _ Hr) as I. pose proof I as [I1 I2 I3 I4].
  split.
  - destruct (_get_sum_spec fuel s 1 l r (_left_bound s) (_right_bound s) f
                ltac:(lia) ltac:(unfold valid_range in I1; lia)
                (valid_range_int_range _ _ I1) Hfit
                ltac:(lia) ltac:(lia) I4) as (s1 & Hrun & _).
    rewrite Z.max_l, Z.min_l in Hrun by lia.
    destruct (get_sum_spec s f l r I ltac:(unfold in_bounds; lia)) as (s2 & E & _).
    eauto.
  - destruct (_add_spec fuel s x 1 l r (_left_bound s) (_right_bound s) f
                ltac:(lia) ltac:(unfold valid_range in I1; lia)
                (valid_range_int_range _ _ I1) Hfit
                ltac:(lia) ltac:(lia) I4) as (s1 & Hrun & _).
    eauto.
Qed.

(** X3 on the driver's tree with a stack of depth 7. *)
Lemma depth_immaterial_witness :
  (exists s1 s2,
     _get_sum 7 1 2 15 (_left_bound demo_tree) (_right_bound demo_tree) demo_tree
       = Done (wrap (sum_range (fun _ => 0) 2 15)) s1 /\
     get_sum 2 15 demo_tree = Done (wrap (sum_range (fun _ => 0) 2 15)) s2) /\
  (exists s',
     _add 7 5 1 2 15 (_left_bound demo_tree) (_right_bound demo_tree) demo_tree
       = Done tt s').
Proof.
  apply (depth_immaterial demo_tree (fun _ => 0) 7 5 2 15).
  - exact demo_tree_reachable.
  - unfold in_bounds. simpl. lia.
  - unfold fits. simpl. lia.
Defined.

(** X4. What a tag stands for: in every reachable tree, the aggregate of
    an inner node is the sum of its children's aggregates plus its own
    tag times its size, so a tag is exactly the per-point amount the node
    has received and its children have not. *)
Theorem tag_owed_to_children s f idx lb rb :
  reachable s f ->
  node 1 (_left_bound s) (_right_bound s) idx lb rb -> lb < rb ->
  exists a t al ar,
    tr s idx = Some a /\ tg s idx = Some t /\
    tr s (2 * idx) = Some al /\ tr s (2 * idx + 1) = Some ar /\
    a = wrap (al + ar + t * (rb - lb + 1)).
Proof.
  intros Hr Hn Hlt. pose proof (reachable_Inv _ _ Hr) as [I1 I2 I3 I4].
  destruct (rep_at_node _ _ _ _ _ _ _ _ _ I4 Hn) as [g H].
  destruct H as [idx p g t Ha Ht|idx lb rb g t _ Ht Ha Hl Hrr]; [lia|].
  pose proof (midpoint_bounds lb rb Hlt) as Hm.
  exists (wrap (sum_range g lb rb)), t,
    (wrap (sum_range (fun p => g p - t) lb (midpoint lb rb))),
    (wrap (sum_range (fun p => g p - t) (midpoint lb rb + 1) rb)).
  split; [exact Ha|]. split; [exact Ht|].
  split; [exact (rep_root _ _ _ _ _ _ Hl)|].
  split; [exact (rep_root _ _ _ _ _ _ Hrr)|].
  change (eqm (sum_range g lb rb)
              (wrap (sum_range (fun p => g p - t) lb (midpoint lb rb))
               + wrap (sum_range (fun p => g p - t) (midpoint lb rb + 1) rb)
               + t * (rb - lb + 1))).
  rewrite !eqm_wrap, <- sum_range_split by lia.
  rewrite (sum_range_ext (fun p => g p - t) (fun p => g p + - t))
    by (intros p _; ring).
  rewrite sum_range_plus by lia.
  replace (sum_range g lb rb + - t * (rb - lb + 1) + t * (rb - lb + 1))
    with (sum_range g lb rb) by ring.
  reflexivity.
Qed.

(** X4 at the root of [tagged_root]. *)
Lemma tag_owed_to_children_witness :
  exists a t al ar,
    tr tagged_root 1 = Some a /\ tg tagged_root 1 = Some t /\
    tr tagged_root (2 * 1) = Some al /\ tr tagged_root (2 * 1 + 1) = Some ar /\
    a = wrap (al + ar + t * (1 - 0 + 1)).
Proof.
  apply (tag_owed_to_children tagged_root (range_add 1 0 1 (fun _ => 0)) 1 0 1).
  - exact tagged_root_reachable.
  - exact (node_root 1 0 1).
  - lia.
Defined.

(** ** Behaviour outside the preconditions, and more on construction *)

Section Clipping.

(** [get_sum] on a range that meets the tree's range: the part outside
    the bounds is ignored. *)
Lemma get_sum_clip_spec s g l r :
  Inv s g -> l <= _right_bound s -> _left_bound s <= r ->
  exists s',
    get_sum l r s
      = Done (wrap (sum_range g (Z.max l (_left_bound s))
                                (Z.min r (_right_bound s)))) s' /\
    Inv s' g /\ frame 1 s s'.
Proof.
  intros I B1 B2. pose proof I as [I1 I2 I3 I4].
  destruct (_get_sum_spec stack_depth s 1 l r (_left_bound s) (_right_bound s) g
              ltac:(lia) ltac:(unfold valid_range in I1; lia)
              (valid_range_int_range _ _ I1) (valid_range_fits _ _ I1)
              B1 B2 I4) as (s' & Hrun & F & Hrep).
  exists s'. split; [exact Hrun|]. split; [exact (Inv_frame _ _ _ I F Hrep)|].
  exact F.
Qed.

Lemma add_clip_spec s g x l r :
  Inv s g -> l <= _right_bound s -> _left_bound s <= r ->
  exists s',
    add x l r s = Done tt s' /\ Inv s' (range_add x l r g) /\
    frame 1 s s'.
Proof.
  intros I B1 B2. pose proof I as [I1 I2 I3 I4].
  destruct (_add_spec stack_depth s x 1 l r (_left_bound s) (_right_bound s) g
              ltac:(lia) ltac:(unfold valid_range in I1; lia)
              (valid_range_int_range _ _ I1) (valid_range_fits _ _ I1)
              B1 B2 I4) as (s' & Hrun & F & Hrep).
  exists s'. split; [exact Hrun|]. split; [|exact F].
  destruct F as [F1 F2 F3 F4 F5].
  split; rewrite ?F1, ?F2, ?F3, ?F4; assumption.
Qed.

Lemma range_add_clip x l r L R g p :
  L <= p <= R ->
  range_add x (Z.max l L) (Z.min r R) g p = range_add x l r g p.
Proof.
  intros Hp. unfold range_add.
  destruct (Z.leb_spec (Z.max l L) p), (Z.leb_spec p (Z.min r R)),
    (Z.leb_spec l p), (Z.leb_spec p r); cbn [andb]; lia.
Qed.

End Clipping.

(** X5. Out-of-range queries are clipped.  On every reachable tree over
    [[L, R]], [get_sum(l, r)] with [l <= R] and [L <= r] returns the sum
    of the true point values over the part of [[l, r]] inside the bounds,
    [[max(l, L), min(r, R)]], and changes the result of no later valid
    call. *)
Theorem get_sum_clips_to_bounds s f l r ops :
  reachable s f ->
  l <= _right_bound s -> _left_bound s <= r ->
  Forall (valid_op s) ops ->
  exists s' vs s1 s2,
    get_sum l r s
      = Done (wrap (sum_range f (Z.max l (_left_bound s))
                                (Z.min r (_right_bound s)))) s' /\
    run ops s' = Done vs s1 /\
    run ops s = Done vs s2.
Proof.
  intros Hr B1 B2 Hops. pose proof (reachable_Inv _ _ Hr) as I.
  destruct (get_sum_clip_spec s f l r I B1 B2) as (s' & E & I' & F).
  destruct (same_answers s s' f ops I I' (frame_lb _ _ _ F) (frame_rb _ _ _ F) Hops)
    as (vs & sa & sb & Ra & Rb).
  exists s', vs, sb, sa. auto.
Qed.

(** X5 on the driver's tree with a range overhanging both bounds. *)
Lemma get_sum_clips_to_bounds_witness :
  exists s' vs s1 s2,
    get_sum (-3) 77 demo_tree
      = Done (wrap (sum_range (fun _ => 0) (Z.max (-3) (_left_bound demo_tree))
                                (Z.min 77 (_right_bound demo_tree)))) s' /\
    run [GetSum 1 50; Add 2 3 4; GetSum 4 9] s' = Done vs s1 /\
    run [GetSum 1 50; Add 2 3 4; GetSum 4 9] demo_tree = Done vs s2.
Proof.
  apply (get_sum_clips_to_bounds demo_tree (fun _ => 0) (-3) 77).
  - exact demo_tree_reachable.
  - simpl. lia.
  - simpl. lia.
  - repeat constructor; unfold is_int, int_min, int_max, in_bounds; simpl; lia.
Defined.

(** X6. Out-of-range updates are clipped.  On every reachable tree over
    [[L, R]], [add(x, l, r)] with [l <= R] and [L <= r] succeeds and acts
    as [add(x, max(l, L), min(r, R))]: every later valid sequence of
    calls returns what the point values updated on that part dictate. *)
Theorem add_clips_to_bounds s f x l r ops :
  reachable s f -> is_int x ->
  l <= _right_bound s -> _left_bound s <= r ->
  Forall (valid_op s) ops ->
  exists s' s1,
    add x l r s = Done tt s' /\
    run ops s'
      = Done (answers (range_add x (Z.max l (_left_bound s))
                                   (Z.min r (_right_bound s)) f) ops) s1.
Proof.
  intros Hr Hx B1 B2 Hops. pose proof (reachable_Inv _ _ Hr) as I.
  destruct (add_clip_spec s f x l r I B1 B2) as (s' & E & I' & F).
  assert (I'' : Inv s' (range_add x (Z.max l (_left_bound s))
                                    (Z.min r (_right_bound s)) f)).
  { apply (Inv_eqm _ _ _ I'). intros p Hp.
    rewrite range_add_clip; [reflexivity|].
    rewrite <- (frame_lb _ _ _ F), <- (frame_rb _ _ _ F). exact Hp. }
  destruct (run_spec ops s' _ I'') as (s1 & R1).
  { eapply Forall_impl; [exact Hops|]. intros o Ho.
    apply (valid_op_bounds s s'); [apply F|apply F|exact Ho]. }
  exists s', s1. auto.
Qed.

(** X6 on the driver's tree with a range overhanging the right bound. *)
Lemma add_clips_to_bounds_witness :
  exists s' s1,
    add 5 40 60 demo_tree = Done tt s' /\
    run [GetSum 1 50; GetSum 45 50] s'
      = Done (answers (range_add 5 (Z.max 40 (_left_bound demo_tree))
                                   (Z.min 60 (_right_bound demo_tree))
                                   (fun _ => 0))
                      [GetSum 1 50; GetSum 45 50]) s1.
Proof.
  apply (add_clips_to_bounds demo_tree (fun _ => 0) 5 40 60).
  - exact demo_tree_reachable.
  - unfold is_int, int_min, int_max. lia.
  - simpl. lia.
  - simpl. lia.
  - repeat constructor; unfold in_bounds; simpl; lia.
Defined.

(** X7. A reversed range inside the bounds is an empty range.  On every
    reachable tree, for [left_bound <= r < l <= right_bound],
    [get_sum(l, r)] returns 0 and [add(x, l, r)] succeeds; neither
    changes the result of any later valid call. *)
Theorem reversed_range_is_empty s f x l r ops :
  reachable s f -> is_int x ->
  _left_bound s <= r -> r < l -> l <= _right_bound s ->
  Forall (valid_op s) ops ->
  exists sq sa vs s0 s1 s2,
    get_sum l r s = Done 0 sq /\
    add x l r s = Done tt sa /\
    run ops s = Done vs s0 /\
    run ops sq = Done vs s1 /\
    run ops sa = Done vs s2.
Proof.
  intros Hr Hx B1 B2 B3 Hops. pose proof (reachable_Inv _ _ Hr) as I.
  destruct (get_sum_clip_spec s f l r I B3 B1) as (sq & Eq & Iq & Fq).
  rewrite sum_range_empty in Eq by lia. change (wrap 0) with 0 in Eq.
  destruct (add_clip_spec s f x l r I B3 B1) as (sa & Ea & Ia & Fa).
  assert (Ia' : Inv sa f).
  { apply (Inv_eqm _ _ _ Ia). intros p _.
    rewrite range_add_out by lia. reflexivity. }
  destruct (same_answers s sq f ops I Iq (frame_lb _ _ _ Fq) (frame_rb _ _ _ Fq) Hops)
    as (vs & s0 & s1 & R0 & R1).
  destruct (same_answers s sa f ops I Ia' (frame_lb _ _ _ Fa) (frame_rb _ _ _ Fa) Hops)
    as (vs' & s0' & s2 & R0' & R2).
  assert (vs' = vs) as -> by congruence.
  exists sq, sa, vs, s0, s1, s2. auto.
Qed.

(** X7 on [tagged_root] with the reversed range [(1, 0)]. *)
Lemma reversed_range_is_empty_witness :
  exists sq sa vs s0 s1 s2,
    get_sum 1 0 tagged_root = Done 0 sq /\
    add 9 1 0 tagged_root = Done tt sa /\
    run [GetSum 0 0; GetSum 0 1] tagged_root = Done vs s0 /\
    run [GetSum 0 0; GetSum 0 1] sq = Done vs s1 /\
    run [GetSum 0 0; GetSum 0 1] sa = Done vs s2.
Proof.
  apply (reversed_range_is_empty tagged_root (range_add 1 0 1 (fun _ => 0)) 9 1 0).
  - exact tagged_root_reachable.
  - unfold is_int, int_min, int_max. lia.
  - simpl. lia.
  - lia.
  - simpl. lia.
  - repeat constructor; unfold in_bounds; simpl; lia.
Defined.

(** X8. The empty vector.  [SegmentTree(vec)] on an empty vector sets
    [_right_bound] to -1 and allocates two empty arrays; [_build] then
    takes [[0, -1]] for an inner node, descends to the node of point 0
    and reads [vec[0]] out of bounds, before any write and whatever the
    object holds.  No tree is constructed. *)
Theorem bulk_constructor_empty_vector :
  wrap (Z.of_nat (length (@nil Z)) - 1) = -1 /\
  SegmentTree_range 0 (-1) = Some (MkSegmentTree 0 (-1) [] []) /\
  (forall fuel idx s, _build (S (S fuel)) idx 0 (-1) [] s = OutOfBounds) /\
  SegmentTree_vec [] = None.
Proof.
  split; [reflexivity|]. split; [reflexivity|]. split; [|reflexivity].
  intros fuel idx s. reflexivity.
Qed.

Section Fresh.

Lemma rep_at_node_untagged tr tg i0 l0 r0 g idx lb rb :
  (forall j t, tg j = Some t -> t = 0) ->
  rep tr tg i0 l0 r0 g -> node i0 l0 r0 idx lb rb ->
  rep tr tg idx lb rb g.
Proof.
  intros Hz Hroot H. induction H as [|j l r H IH Hlt|j l r H IH Hlt].
  - exact Hroot.
  - remember g as g' eqn:Eg in IH.
    destruct IH as [idx p g' t' Ha' Ht'|idx lb rb g' t' _ Ht' Ha' Hl Hr]; [lia|].
    subst g'. rewrite (Hz _ _ Ht') in Hl.
    apply (rep_eqm _ _ _ _ _ _ _ Hl). intros p _. cbv beta.
    rewrite Z.sub_0_r. reflexivity.
  - remember g as g' eqn:Eg in IH.
    destruct IH as [idx p g' t' Ha' Ht'|idx lb rb g' t' _ Ht' Ha' Hl Hr]; [lia|].
    subst g'. rewrite (Hz _ _ Ht') in Hr.
    apply (rep_eqm _ _ _ _ _ _ _ Hr). intros p _. cbv beta.
    rewrite Z.sub_0_r. reflexivity.
Qed.

(** The bulk constructor leaves every tag at zero. *)
Lemma SegmentTree_vec_untagged v s :
  valid_vec v -> SegmentTree_vec v = Some s ->
  forall j t, tg s j = Some t -> t = 0.
Proof.
  intros Hv. pose proof (valid_vec_range v Hv) as Hr.
  unfold SegmentTree_vec.
  rewrite (wrap_small (Z.of_nat (length v) - 1)) by apply Hr.
  destruct (SegmentTree_range_spec _ _ Hr) as (s0 & -> & I0 & HL & HR & Hz).
  destruct I0 as [I1 I2 I3 I4]. rewrite HL, HR in *.
  destruct (_build_spec stack_depth s0 1 0 (Z.of_nat (length v) - 1) _ v
              ltac:(lia) ltac:(unfold valid_range in Hr; lia)
              (valid_range_int_range _ _ Hr) (valid_range_fits _ _ Hr) I4 Hz
              (fun p Hp => valid_vec_get v p Hv Hp))
    as (s1 & Hrun & F & Htg & Hrep).
  rewrite Hrun. intros E j t Hj. injection E as <-.
  apply (Hz j). rewrite <- Htg. exact Hj.
Qed.

End Fresh.

(** X9. An empty-constructed tree is all zero.  For every valid range,
    [SegmentTree(L, R)] yields a tree on which every valid
    [get_sum(l, r)] returns 0. *)
Theorem fresh_tree_sums_to_zero L R :
  valid_range L R ->
  exists s,
    SegmentTree_range L R = Some s /\
    forall l r, L <= l -> l <= r -> r <= R ->
      exists s', get_sum l r s = Done 0 s'.
Proof.
  intros Hv.
  destruct (SegmentTree_range_spec L R Hv) as (s & E & I & HL & HR & _).
  exists s. split; [exact E|]. intros l r H1 H2 H3.
  destruct (get_sum_spec s _ l r I) as (s' & Eq & _).
  { unfold in_bounds. rewrite HL, HR. lia. }
  rewrite sum_range_zero in Eq. exists s'. exact Eq.
Qed.

(** X9 on the driver's range. *)
Lemma fresh_tree_sums_to_zero_witness :
  exists s,
    SegmentTree_range 1 50 = Some s /\
    forall l r, 1 <= l -> l <= r -> r <= 50 ->
      exists s', get_sum l r s = Done 0 s'.
Proof.
  apply (fresh_tree_sums_to_zero 1 50).
  unfold valid_range, is_int, int_min, int_max. lia.
Defined.

(** X11. A freshly built tree has nothing pending.  For every valid
    vector [v], the tree built by [SegmentTree(v)] has all its tags at
    zero and every node's aggregate is the sum of [v] over the node's
    range: each inner aggregate is the sum of its two children's. *)
Theorem built_tree_is_exact v :
  valid_vec v ->
  exists s,
    SegmentTree_vec v = Some s /\
    (forall j t, tg s j = Some t -> t = 0) /\
    aggregates_exact s (vec_at v).
Proof.
  intros Hv. destruct (SegmentTree_vec_spec v Hv) as (s & E & I & HL & HR).
  pose proof (SegmentTree_vec_untagged v s Hv E) as Hz.
  exists s. split; [exact E|]. split; [exact Hz|].
  intros idx lb rb Hn. destruct I as [I1 I2 I3 I4].
  exact (rep_root _ _ _ _ _ _ (rep_at_node_untagged _ _ _ _ _ _ _ _ _ Hz I4 Hn)).
Qed.

(** X11 on the vector [3, 1, 4, 1, 5]. *)
Lemma built_tree_is_exact_witness :
  exists s,
    SegmentTree_vec [3; 1; 4; 1; 5] = Some s /\
    (forall j t, tg s j = Some t -> t = 0) /\
    aggregates_exact s (vec_at [3; 1; 4; 1; 5]).
Proof.
  apply (built_tree_is_exact [3; 1; 4; 1; 5]).
  unfold valid_vec. split; [simpl; lia|]. split.
  - repeat constructor; unfold is_int, int_min, int_max; lia.
  - unfold int_max. simpl. lia.
Defined.

Section RangeOverRange.

Lemma overlap_step a n lo hi :
  overlap a (a + Z.of_nat (S n) - 1) lo hi
  = (if (lo <=? a) && (a <=? hi) then 1 else 0)
    + overlap (a + 1) (a + 1 + Z.of_nat n - 1) lo hi.
Proof.
  unfold overlap.
  destruct (Z.leb_spec lo a), (Z.leb_spec a hi); cbn [andb]; lia.
Qed.

Lemma sum_from_range_add f x lo hi : forall n a,
  sum_from (range_add x lo hi f) a n
  = sum_from f a n + x * overlap a (a + Z.of_nat n - 1) lo hi.
Proof.
  induction n as [|n IH]; intros a.
  - cbn [sum_from]. unfold overlap. replace (Z.max 0 _) with 0 by lia. ring.
  - cbn [sum_from]. rewrite IH, overlap_step. unfold range_add at 1.
    destruct ((lo <=? a) && (a <=? hi)); ring.
Qed.

(** The sum over [[a, b]] after an update of [[lo, hi]] by [x]. *)
Lemma sum_range_range_add f x lo hi a b :
  a <= b ->
  sum_range (range_add x lo hi f) a b
  = sum_range f a b + x * overlap a b lo hi.
Proof.
  intros Hab. unfold sum_range. rewrite sum_from_range_add.
  do 3 f_equal. lia.
Qed.

End RangeOverRange.

(** X10. A range update seen by a range query.  On every reachable tree,
    for valid ranges [[lo, hi]] and [[a, b]], [get_sum(a, b)] after
    [add(x, lo, hi)] is its value from before plus [x] times the number
    of points the two ranges share (in [int] arithmetic). *)
Theorem range_update_shifts_range_sum s f x lo hi a b :
  reachable s f -> is_int x -> in_bounds s lo hi -> in_bounds s a b ->
  exists v0 s0 s1 v1 s2,
    get_sum a b s = Done v0 s0 /\
    add x lo hi s0 = Done tt s1 /\
    get_sum a b s1 = Done v1 s2 /\
    v1 = add32 v0 (mul32 x (overlap a b lo hi)).
Proof.
  intros Hr Hx Hb Hab. pose proof (reachable_Inv _ _ Hr) as I.
  destruct (get_sum_spec s f a b I Hab) as (s0 & E0 & I0 & L0 & R0).
  destruct (add_spec s0 f x lo hi I0) as (s1 & E1 & I1 & L1 & R1).
  { unfold in_bounds in *. rewrite L0, R0. exact Hb. }
  destruct (get_sum_spec s1 _ a b I1) as (s2 & E2 & _).
  { unfold in_bounds in *. rewrite L1, R1, L0, R0. exact Hab. }
  do 5 eexists. split; [exact E0|]. split; [exact E1|]. split; [exact E2|].
  rewrite sum_range_range_add by (destruct Hab; lia).
  unfold add32, mul32.
  change (eqm (sum_range f a b + x * overlap a b lo hi)
              (wrap (sum_range f a b) + wrap (x * overlap a b lo hi))).
  rewrite !eqm_wrap. reflexivity.
Qed.

(** X10 on the driver's tree: its last update and its last query. *)
Lemma range_update_shifts_range_sum_witness :
  exists v0 s0 s1 v1 s2,
    get_sum 10 26 demo_tree = Done v0 s0 /\
    add 5 10 23 s0 = Done tt s1 /\
    get_sum 10 26 s1 = Done v1 s2 /\
    v1 = add32 v0 (mul32 5 (overlap 10 26 10 23)).
Proof.
  apply (range_update_shifts_range_sum demo_tree (fun _ => 0) 5 10 23 10 26).
  - exact demo_tree_reachable.
  - unfold is_int, int_min, int_max. lia.
  - unfold in_bounds. simpl. lia.
  - unfold in_bounds. simpl. lia.
Defined.

Section Merging.

Lemma range_add_merge x y l r g p :
  eqm (range_add y l r (range_add x l r g) p) (range_add (add32 x y) l r g p).
Proof.
  unfold range_add, add32.
  destruct ((l <=? p) && (p <=? r)); [|reflexivity].
  rewrite eqm_wrap. replace (g p + x + y) with (g p + (x + y)) by ring.
  reflexivity.
Qed.

End Merging.

(** X13. Updates of one range merge.  On every reachable tree,
    [add(x, l, r); add(y, l, r)] leaves every later valid call with the
    result it has after the single update [add(x + y, l, r)] ([x + y] an
    [int] addition). *)
Theorem same_range_updates_merge s f x y l r ops :
  reachable s f -> is_int x -> is_int y -> in_bounds s l r ->
  Forall (valid_op s) ops ->
  exists s2 s1 vs s2' s1',
    (add x l r ;;; add y l r) s = Done tt s2 /\
    add (add32 x y) l r s = Done tt s1 /\
    run ops s2 = Done vs s2' /\
    run ops s1 = Done vs s1'.
Proof.
  intros Hr Hx Hy Hb Hops. pose proof (reachable_Inv _ _ Hr) as I.
  destruct (add_spec s f x l r I Hb) as (sx & Ex & Ix & Lx & Rx).
  destruct (add_spec sx _ y l r Ix) as (s2 & E2 & I2 & L2 & R2).
  { unfold in_bounds in *. rewrite Lx, Rx. exact Hb. }
  destruct (add_spec s f (add32 x y) l r I Hb) as (s1 & E1 & I1 & L1 & R1).
  assert (I2' : Inv s2 (range_add (add32 x y) l r f)).
  { apply (Inv_eqm _ _ _ I2). intros p _. apply range_add_merge. }
  destruct (same_answers s2 s1 _ ops I2' I1) as (vs & s2' & s1' & Ra & Rb).
  { congruence. }
  { congruence. }
  { eapply Forall_impl; [exact Hops|]. intros o Ho.
    apply (valid_op_bounds s s2); congruence. }
  exists s2, s1, vs, s2', s1'. unfold bind. rewrite Ex. auto.
Qed.

(** X13 on the driver's tree. *)
Lemma same_range_updates_merge_witness :
  exists s2 s1 vs s2' s1',
    (add 5 10 23 ;;; add (-7) 10 23) demo_tree = Done tt s2 /\
    add (add32 5 (-7)) 10 23 demo_tree = Done tt s1 /\
    run [GetSum 2 15; GetSum 23 24] s2 = Done vs s2' /\
    run [GetSum 2 15; GetSum 23 24] s1 = Done vs s1'.
Proof.
  apply (same_range_updates_merge demo_tree (fun _ => 0) 5 (-7) 10 23).
  - exact demo_tree_reachable.
  - unfold is_int, int_min, int_max. lia.
  - unfold is_int, int_min, int_max. lia.
  - unfold in_bounds. simpl. lia.
  - repeat constructor; unfold in_bounds; simpl; lia.
Defined.

Section Runaway.

Lemma wrap_double_high idx :
  0 <= idx <= int_max -> int_max < 2 * idx -> wrap (idx * 2) < 0.
Proof.
  unfold int_max. intros H1 H2.
  rewrite <- (wrap_periodic (idx * 2) (-1)).
  rewrite wrap_small; unfold is_int, int_min, int_max, modulus; lia.
Qed.

(** Where a descent below a leaf goes: the doubled index is either
    negative as an [int] or twice as far on. *)
Lemma doubled_index (len idx : Z) (k : nat) :
  len <= int_max -> 1 <= idx < len -> len <= idx * 2 ^ Z.of_nat (S k) ->
  mul32 idx 2 < 0 \/ (1 <= mul32 idx 2 /\ len <= mul32 idx 2 * 2 ^ Z.of_nat k).
Proof.
  intros Hlen Hidx Hk. unfold mul32.
  destruct (Z.le_gt_cases (2 * idx) int_max) as [Hs|Hb].
  - right. rewrite wrap_small by (unfold is_int, int_min, int_max in *; lia).
    rewrite Nat2Z.inj_succ, Z.pow_succ_r in Hk by lia. lia.
  - left. apply wrap_double_high; lia.
Qed.

Lemma leaf_mid_exact p : is_int p -> add32 p (div32 (sub32 p p) 2) = p.
Proof.
  intros Hp. rewrite mid_exact; [unfold midpoint| |lia].
  - rewrite Z.sub_diag. change (0 / 2) with 0. lia.
  - unfold int_range, int_max. unfold is_int, int_min, int_max in Hp. 
    split; [exact Hp|]. split; [exact Hp|]. lia.
Qed.

(** Below a leaf whose point is right of the queried range, [_get_sum]
    keeps calling itself on the same point with doubled indices until it
    reads [_tags] out of bounds. *)
Lemma _get_sum_below_leaf k : forall s idx l r p,
  is_int p -> l <= p -> r < p ->
  Z.of_nat (length (_tags s)) <= int_max ->
  idx < 0 \/ (1 <= idx /\ Z.of_nat (length (_tags s)) <= idx * 2 ^ Z.of_nat k) ->
  _get_sum (S k) idx l r p p s = OutOfBounds.
Proof.
  induction k as [|k IH]; intros s idx l r p Hp Hl Hr Hlen Hidx.
  - cbn [_get_sum].
    rewrite (proj2 (Z.leb_gt p r) Hr), andb_false_r, (leaf_mid_exact p Hp).
    unfold push_down, bind at 1, bind at 1, tags_at at 1.
    destruct (vget (_tags s) idx) as [t|] eqn:Ht; [|reflexivity].
    pose proof (vget_lt _ _ _ Ht) as Hin.
    exfalso. change (2 ^ Z.of_nat 0) with 1 in Hidx. lia.
  - remember (S k) as fuel eqn:Ef. cbn [_get_sum].
    rewrite (proj2 (Z.leb_gt p r) Hr), andb_false_r, (leaf_mid_exact p Hp).
    unfold push_down, bind at 1, bind at 1, tags_at at 1.
    destruct (vget (_tags s) idx) as [t|] eqn:Ht; [|reflexivity].
    pose proof (vget_lt _ _ _ Ht) as Hin.
    rewrite Z.eqb_refl, andb_false_r. unfold ret at 1.
    rewrite (proj2 (Z.leb_le l p) Hl).
    unfold bind at 1, bind at 1. subst fuel.
    rewrite (IH s (mul32 idx 2) l r p Hp Hl Hr Hlen); [reflexivity|].
    apply doubled_index; lia.
Qed.

Lemma _add_below_leaf k : forall s x idx l r p,
  is_int p -> l <= p -> r < p ->
  Z.of_nat (length (_tags s)) <= int_max ->
  idx < 0 \/ (1 <= idx /\ Z.of_nat (length (_tags s)) <= idx * 2 ^ Z.of_nat k) ->
  _add (S k) x idx l r p p s = OutOfBounds.
Proof.
  induction k as [|k IH]; intros s x idx l r p Hp Hl Hr Hlen Hidx.
  - cbn [_add].
    rewrite (proj2 (Z.leb_gt p r) Hr), andb_false_r, (leaf_mid_exact p Hp).
    unfold push_down, bind at 1, bind at 1, tags_at at 1.
    destruct (vget (_tags s) idx) as [t|] eqn:Ht; [|reflexivity].
    pose proof (vget_lt _ _ _ Ht) as Hin.
    exfalso. change (2 ^ Z.of_nat 0) with 1 in Hidx. lia.
  - remember (S k) as fuel eqn:Ef. cbn [_add].
    rewrite (proj2 (Z.leb_gt p r) Hr), andb_false_r, (leaf_mid_exact p Hp).
    unfold push_down, bind at 1, bind at 1, tags_at at 1.
    destruct (vget (_tags s) idx) as [t|] eqn:Ht; [|reflexivity].
    pose proof (vget_lt _ _ _ Ht) as Hin.
    rewrite Z.eqb_refl, andb_false_r. unfold ret at 1.
    rewrite (proj2 (Z.leb_le l p) Hl).
    unfold bind at 1. subst fuel.
    rewrite (IH s x (mul32 idx 2) l r p Hp Hl Hr Hlen); [reflexivity|].
    apply doubled_index; lia.
Qed.

Lemma pow2_ge_32 (F : nat) : 2 ^ 32 <= 2 ^ Z.of_nat (F + 32).
Proof. apply Z.pow_le_mono_r; lia. Qed.

(** On a range left of a subtree, [_get_sum] goes down the leftmost
    branch and on below its leaf. *)
Lemma _get_sum_left_of F : forall s idx l r lb rb g,
  1 <= idx ->
  Z.of_nat (length (_tree s)) <= int_max ->
  Z.of_nat (length (_tags s)) <= int_max ->
  int_range lb rb -> fits (S F) lb rb ->
  rep (tr s) (tg s) idx lb rb g ->
  l <= lb -> r < lb ->
  _get_sum (S (F + 32)) idx l r lb rb s = OutOfBounds.
Proof.
  induction F as [|F IH];
    intros s idx l r lb rb g Hidx Hlen Hlent Hir Hfit H Hl Hr;
    pose proof (pow2_ge_32 0) as P0.
  - destruct H as [idx p g t Ha Ht|idx lb rb g t Hlt Ht Ha Hl' Hr'].
    + apply _get_sum_below_leaf; try lia; [apply Hir|].
      right. unfold int_max in Hlent. nia.
    + unfold fits in Hfit. change (2 ^ (Z.of_nat 1 - 1)) with 1 in Hfit. lia.
  - pose proof (rep_range _ _ _ _ _ _ H) as Hle.
    destruct (Z.eq_dec lb rb) as [->|Hne].
    + apply _get_sum_below_leaf; try lia; [apply Hir|].
      right. pose proof (pow2_ge_32 (S F)). unfold int_max in Hlent. nia.
    + assert (Hlt : lb < rb) by lia.
      pose proof (midpoint_bounds lb rb Hlt) as Hm.
      destruct (fits_children _ _ _ Hlt Hfit) as [FitL _].
      pose proof (int_range_left _ _ Hir Hlt) as IrL.
      change (S (S F + 32)) with (S (S (F + 32))).
      remember (S (F + 32)) as fuel eqn:Ef. cbn [_get_sum].
      rewrite (proj2 (Z.leb_gt rb r) ltac:(lia)), andb_false_r.
      rewrite (mid_exact lb rb Hir Hle).
      destruct (push_down_spec s idx lb rb g Hidx Hlen Hlt H)
        as (s1 & Hpush & F1 & Htg1 & Htr1 & Hl1 & Hr1).
      pose proof (vget_lt _ _ _ (rep_root _ _ _ _ _ _ Hr1)) as Hin.
      rewrite (frame_tree_len _ _ _ F1) in Hin.
      destruct (double_exact idx Hidx ltac:(lia)) as [E2 E3].
      rewrite E2. unfold bind at 1. rewrite Hpush.
      rewrite (proj2 (Z.leb_le l (midpoint lb rb)) ltac:(lia)).
      unfold bind at 1, bind at 1. subst fuel.
      rewrite (IH s1 (2 * idx) l r lb (midpoint lb rb) g); try assumption;
        try lia; try reflexivity.
      * rewrite (frame_tree_len _ _ _ F1). exact Hlen.
      * rewrite (frame_tags_len _ _ _ F1). exact Hlent.
Qed.

Lemma _add_left_of F : forall s x idx l r lb rb g,
  1 <= idx ->
  Z.of_nat (length (_tree s)) <= int_max ->
  Z.of_nat (length (_tags s)) <= int_max ->
  int_range lb rb -> fits (S F) lb rb ->
  rep (tr s) (tg s) idx lb rb g ->
  l <= lb -> r < lb ->
  _add (S (F + 32)) x idx l r lb rb s = OutOfBounds.
Proof.
  induction F as [|F IH];
    intros s x idx l r lb rb g Hidx Hlen Hlent Hir Hfit H Hl Hr;
    pose proof (pow2_ge_32 0) as P0.
  - destruct H as [idx p g t Ha Ht|idx lb rb g t Hlt Ht Ha Hl' Hr'].
    + apply _add_below_leaf; try lia; [apply Hir|].
      right. unfold int_max in Hlent. nia.
    + unfold fits in Hfit. change (2 ^ (Z.of_nat 1 - 1)) with 1 in Hfit. lia.
  - pose proof (rep_range _ _ _ _ _ _ H) as Hle.
    destruct (Z.eq_dec lb rb) as [->|Hne].
    + apply _add_below_leaf; try lia; [apply Hir|].
      right. pose proof (pow2_ge_32 (S F)). unfold int_max in Hlent. nia.
    + assert (Hlt : lb < rb) by lia.
      pose proof (midpoint_bounds lb rb Hlt) as Hm.
      destruct (fits_children _ _ _ Hlt Hfit) as [FitL _].
      pose proof (int_range_left _ _ Hir Hlt) as IrL.
      change (S (S F + 32)) with (S (S (F + 32))).
      remember (S (F + 32)) as fuel eqn:Ef. cbn [_add].
      rewrite (proj2 (Z.leb_gt rb r) ltac:(lia)), andb_false_r.
      rewrite (mid_exact lb rb Hir Hle).
      destruct (push_down_spec s idx lb rb g Hidx Hlen Hlt H)
        as (s1 & Hpush & F1 & Htg1 & Htr1 & Hl1 & Hr1).
      pose proof (vget_lt _ _ _ (rep_root _ _ _ _ _ _ Hr1)) as Hin.
      rewrite (frame_tree_len _ _ _ F1) in Hin.
      destruct (double_exact idx Hidx ltac:(lia)) as [E2 E3].
      rewrite E2. unfold bind at 1. rewrite Hpush.
      rewrite (proj2 (Z.leb_le l (midpoint lb rb)) ltac:(lia)).
      unfold bind at 1. subst fuel.
      rewrite (IH s1 x (2 * idx) l r lb (midpoint lb rb) g); try assumption;
        try lia; try reflexivity.
      * rewrite (frame_tree_len _ _ _ F1). exact Hlen.
      * rewrite (frame_tags_len _ _ _ F1). exact Hlent.
Qed.

End Runaway.

(** X14. A range left of the bounds makes the recursion run away.  On
    every reachable tree, [get_sum(l, r)] and [add(x, l, r)] with
    [l <= r < left_bound] return nothing: they go down the leftmost
    branch, find the leaf not covered, and call themselves on it again
    and again with doubled node indices until [_tags] is read out of
    bounds. *)
Theorem range_left_of_bounds_runs_away s f x l r :
  reachable s f -> l <= r -> r < _left_bound s ->
  get_sum l r s = OutOfBounds /\ add x l r s = OutOfBounds.
Proof.
  intros Hr Hlr Hlow. pose proof (reachable_Inv _ _ Hr) as [I1 I2 I3 I4].
  assert (Hfit : fits (S 31) (_left_bound s) (_right_bound s)).
  { unfold fits. change (2 ^ (Z.of_nat 32 - 1)) with 2147483648.
    unfold valid_range, int_max in I1. lia. }
  unfold get_sum, add. change stack_depth with (S (31 + 32)). split.
  - apply (_get_sum_left_of 31 s 1 l r _ _ f); try assumption; try lia.
    + unfold valid_range in I1. lia.
    + unfold valid_range in I1. lia.
    + apply valid_range_int_range, I1.
  - apply (_add_left_of 31 s x 1 l r _ _ f); try assumption; try lia.
    + unfold valid_range in I1. lia.
    + unfold valid_range in I1. lia.
    + apply valid_range_int_range, I1.
Qed.

(** X14 on the driver's tree with the range [[-5, 0]]. *)
Lemma range_left_of_bounds_runs_away_witness :
  get_sum (-5) 0 demo_tree = OutOfBounds /\ add 3 (-5) 0 demo_tree = OutOfBounds.
Proof.
  apply (range_left_of_bounds_runs_away demo_tree (fun _ => 0) 3 (-5) 0).
  - exact demo_tree_reachable.
  - lia.
  - simpl. lia.
Defined.

Section SlotZero.

Lemma not_desc_zero : ~ desc 1 0.
Proof. intros H. apply desc_ge in H; lia. Qed.

Lemma SegmentTree_range_slot0 L R s :
  valid_range L R -> SegmentTree_range L R = Some s ->
  tr s 0 = Some 0 /\ tg s 0 = Some 0.
Proof.
  intros Hv. unfold SegmentTree_range.
  assert (Hn : 0 <= 4 * (R - L + 1)) by (unfold valid_range in Hv; lia).
  rewrite (space_needed_exact L R) by exact Hv.
  unfold new_vector at 1. rewrite decide_True by exact Hn. cbv beta iota zeta.
  rewrite (space_needed_exact L R) by exact Hv.
  unfold new_vector. rewrite decide_True by exact Hn.
  intros E. injection E as <-. unfold tr, tg. cbn [_tree _tags].
  rewrite vget_replicate by (unfold valid_range in Hv; lia). auto.
Qed.

Lemma SegmentTree_vec_slot0 v s :
  valid_vec v -> SegmentTree_vec v = Some s ->
  tr s 0 = Some 0 /\ tg s 0 = Some 0.
Proof.
  intros Hv. pose proof (valid_vec_range v Hv) as Hr.
  unfold SegmentTree_vec.
  rewrite (wrap_small (Z.of_nat (length v) - 1)) by apply Hr.
  destruct (SegmentTree_range_spec _ _ Hr) as (s0 & E0 & I0 & HL & HR & Hz).
  pose proof (SegmentTree_range_slot0 _ _ _ Hr E0) as [Z1 Z2].
  rewrite E0. destruct I0 as [I1 I2 I3 I4]. rewrite HL, HR in *.
  destruct (_build_spec stack_depth s0 1 0 (Z.of_nat (length v) - 1) _ v
              ltac:(lia) ltac:(unfold valid_range in Hr; lia)
              (valid_range_int_range _ _ Hr) (valid_range_fits _ _ Hr) I4 Hz
              (fun p Hp => valid_vec_get v p Hv Hp))
    as (s1 & Hrun & F & Htg & Hrep).
  rewrite Hrun. intros E. injection E as <-.
  destruct (frame_out _ _ _ F 0 not_desc_zero) as [E1 E2]. split; congruence.
Qed.

Lemma get_sum_frame s g l r v s' :
  Inv s g -> in_bounds s l r -> get_sum l r s = Done v s' -> frame 1 s s'.
Proof.
  intros I (B1 & B2 & B3) E.
  destruct (get_sum_clip_spec s g l r I ltac:(lia) ltac:(lia))
    as (s'' & Hrun & _ & F).
  rewrite Hrun in E. injection E as _ <-. exact F.
Qed.

Lemma add_frame s g x l r s' :
  Inv s g -> in_bounds s l r -> add x l r s = Done tt s' -> frame 1 s s'.
Proof.
  intros I (B1 & B2 & B3) E.
  destruct (add_clip_spec s g x l r I ltac:(lia) ltac:(lia)) as (s'' & Hrun & _ & F).
  rewrite Hrun in E. injection E as <-. exact F.
Qed.

End SlotZero.

(** X12. Slot 0 is never used.  Node indices start at 1: in every
    reachable tree, slot 0 of [_tree] and of [_tags] still holds the 0 it
    was allocated with. *)
Theorem slot_zero_never_written s f :
  reachable s f -> tr s 0 = Some 0 /\ tg s 0 = Some 0.
Proof.
  intros H. induction H as [L R s Hv Hc|v s Hv Hc|s f x l r s' H IH Hx Hb Hrun
                           |s f l r v s' H IH Hb Hrun].
  - exact (SegmentTree_range_slot0 L R s Hv Hc).
  - exact (SegmentTree_vec_slot0 v s Hv Hc).
  - pose proof (add_frame s f x l r s' (reachable_Inv _ _ H) Hb Hrun) as F.
    destruct (frame_out _ _ _ F 0 not_desc_zero) as [E1 E2].
    destruct IH. split; congruence.
  - pose proof (get_sum_frame s f l r v s' (reachable_Inv _ _ H) Hb Hrun) as F.
    destruct (frame_out _ _ _ F 0 not_desc_zero) as [E1 E2].
    destruct IH. split; congruence.
Qed.

(** X12 on [tagged_leaf]. *)
Lemma slot_zero_never_written_witness :
  tr tagged_leaf 0 = Some 0 /\ tg tagged_leaf 0 = Some 0.
Proof.
  apply (slot_zero_never_written tagged_leaf (range_add 1 0 0 (fun _ => 0))).
  exact tagged_leaf_reachable.
Defined.

Section DriverLoops.

Lemma loop_values_step sign i n g p :
  loop_values sign (i + 1) n (range_add (sign * i) i i g) p
  = loop_values sign i (S n) g p.
Proof.
  unfold loop_values, range_add. rewrite Nat2Z.inj_succ.
  destruct (Z.leb_spec (i + 1) p), (Z.ltb_spec p (i + 1 + Z.of_nat n)),
    (Z.leb_spec i p), (Z.leb_spec p i), (Z.ltb_spec p (i + Z.succ (Z.of_nat n)));
    cbn [andb]; try lia.
  assert (p = i) as -> by lia. reflexivity.
Qed.

Lemma state_after_done {A} (m : M A) s a s' :
  m s = Done a s' -> state_after m (Some s) = Some s'.
Proof. intros E. unfold state_after. rewrite E. reflexivity. Qed.

Lemma add_each_S sign i n so :
  add_each sign i (S n) so
  = add_each sign (i + 1) n (state_after (add (sign * i) i i) so).
Proof. reflexivity. Qed.

Lemma add_each_none sign n : forall i, add_each sign i n None = None.
Proof. induction n as [|n IH]; intros i; [reflexivity|]. rewrite add_each_S. apply IH. Qed.

(** The two forms of the driver's loop agree. *)
Lemma add_each_add_loop sign n : forall i s,
  add_each sign i n (Some s) = state_after (add_loop sign i n) (Some s).
Proof.
  induction n as [|n IH]; intros i s; [reflexivity|].
  rewrite add_each_S.
  change (add_loop sign i (S n))
    with (add (sign * i) i i ;;; add_loop sign (i + 1) n).
  unfold state_after at 1 2, bind.
  destruct (add (sign * i) i i s) as [[] s1| |].
  - rewrite IH. reflexivity.
  - apply add_each_none.
  - apply add_each_none.
Qed.

(** The loop [for (p = i; p < i + n; p++) add(sign * p, p, p)] on a
    well-formed object. *)
Lemma add_each_spec sign : forall n s g i,
  Inv s g ->
  _left_bound s <= i -> i + Z.of_nat n - 1 <= _right_bound s ->
  exists s',
    add_each sign i n (Some s) = Some s' /\
    Inv s' (loop_values sign i n g) /\
    _left_bound s' = _left_bound s /\ _right_bound s' = _right_bound s.
Proof.
  induction n as [|n IH]; intros s g i I B1 B2.
  - exists s. split; [reflexivity|]. split; [|auto].
    apply (Inv_eqm _ _ _ I). intros p _. unfold loop_values.
    destruct (Z.leb_spec i p), (Z.ltb_spec p (i + Z.of_nat 0)); cbn [andb];
      try reflexivity. lia.
  - destruct (add_spec s g (sign * i) i i I) as (s1 & E1 & I1 & L1 & R1).
    { unfold in_bounds. lia. }
    destruct (IH s1 _ (i + 1) I1) as (s' & E & I' & L' & R').
    { lia. }
    { lia. }
    exists s'. rewrite add_each_S, (state_after_done _ _ _ _ E1).
    split; [exact E|]. split; [|split; congruence].
    apply (Inv_eqm _ _ _ I'). intros p _.
    rewrite loop_values_step. reflexivity.
Qed.

End DriverLoops.

(** X15. The driver's two loops.  On every reachable tree and for every
    window [[i, i + n)] inside the bounds, the loop calling
    [add(p, p, p)] for each [p] of the window leaves every point [p] of
    the window at its earlier value plus [p]; the loop calling
    [add(-p, p, p)] after it restores the result of every later valid
    call. *)
Theorem driver_loops_cancel s f i n ops :
  reachable s f ->
  _left_bound s <= i -> i + Z.of_nat n - 1 <= _right_bound s ->
  Forall (valid_op s) ops ->
  exists s1 s2 vs sa sb,
    add_each 1 i n (Some s) = Some s1 /\
    (forall p, i <= p < i + Z.of_nat n ->
       exists s', get_sum p p s1 = Done (wrap (f p + p)) s') /\
    add_each (-1) i n (Some s1) = Some s2 /\
    run ops s2 = Done vs sa /\
    run ops s = Done vs sb.
Proof.
  intros Hr B1 B2 Hops. pose proof (reachable_Inv _ _ Hr) as I.
  destruct (add_each_spec 1 n s f i I B1 B2) as (s1 & E1 & I1 & L1 & R1).
  destruct (add_each_spec (-1) n s1 _ i I1) as (s2 & E2 & I2 & L2 & R2).
  { lia. }
  { lia. }
  assert (I2' : Inv s2 f).
  { apply (Inv_eqm _ _ _ I2). intros p _. unfold loop_values.
    destruct ((i <=? p) && (p <? i + Z.of_nat n)); [|reflexivity].
    replace (f p + 1 * p + -1 * p) with (f p) by ring. reflexivity. }
  destruct (same_answers s2 s f ops I2' I) as (vs & sa & sb & Ra & Rb).
  { congruence. }
  { congruence. }
  { eapply Forall_impl; [exact Hops|]. intros o Ho.
    apply (valid_op_bounds s s2); congruence. }
  exists s1, s2, vs, sa, sb. split; [exact E1|]. split; [|auto].
  intros p Hp. destruct (get_sum_spec s1 _ p p I1) as (s' & Eq & _).
  { unfold in_bounds. lia. }
  exists s'. rewrite Eq, sum_range_one. unfold loop_values.
  destruct (Z.leb_spec i p), (Z.ltb_spec p (i + Z.of_nat n)); cbn [andb]; try lia.
  replace (f p + 1 * p) with (f p + p) by ring. reflexivity.
Qed.

(** X15 on the driver's tree and the window [[1, 50]] of [main]. *)
Lemma driver_loops_cancel_witness :
  exists s1 s2 vs sa sb,
    add_each 1 1 50 (Some demo_tree) = Some s1 /\
    (forall p, 1 <= p < 1 + Z.of_nat 50 ->
       exists s', get_sum p p s1 = Done (wrap ((fun _ => 0) p + p)) s') /\
    add_each (-1) 1 50 (Some s1) = Some s2 /\
    run [GetSum 2 5; GetSum 1 10] s2 = Done vs sa /\
    run [GetSum 2 5; GetSum 1 10] demo_tree = Done vs sb.
Proof.
  apply (driver_loops_cancel demo_tree (fun _ => 0) 1 50).
  - exact demo_tree_reachable.
  - simpl. lia.
  - simpl. lia.
  - repeat constructor; unfold in_bounds; simpl; lia.
Defined.
